(** * Black-Scholes pricing of European options: the code of
    [EuropeanOption.py], embedded and checked against its specification.

    Conventions of the embedding.
    - A Python [float] is read as a real number ([R]): arithmetic is exact,
      so rounding, overflow and the non-finite values [inf]/[nan] are outside
      the model.  The exceptions Python raises on finite inputs are kept:
      [a / b] on Python numbers raises [ZeroDivisionError] when [b = 0] and
      [math.log x] raises [ValueError] when [x <= 0].  A division whose
      divisor went through [np.sqrt] is a NumPy division and never raises.
    - A Python [str] is a [string]; [str.lower] acts on the letters A-Z.
      No character outside ASCII lowercases to a letter of "call" or "put",
      so membership of the lowered string in ['call', 'put'] is exact.
    - [scipy.stats.norm] is given by its mathematical definition;
      [scipy.optimize.least_squares] is a parameter of [implied_volatility]. *)

From Stdlib Require Import Reals Lra Lia String Ascii List ZArith Bool.
Import ListNotations.

Local Open Scope R_scope.

(** ** Exceptions and results *)

Inductive exn : Type :=
| ValueError (msg : string)
| ZeroDivisionError
| IndexError.

Inductive result (A : Type) : Type :=
| Ret (a : A)
| Raise (e : exn).

Arguments Ret {A} a.
Arguments Raise {A} e.

Definition bind {A B : Type} (m : result A) (k : A -> result B) : result B :=
  match m with
  | Ret a => k a
  | Raise e => Raise e
  end.

Notation "x <- m ;; k" := (bind m (fun x => k))
  (at level 61, m at next level, right associativity).
Notation "' pat <- m ;; k" := (bind m (fun x => match x with pat => k end))
  (at level 61, pat pattern, m at next level, right associativity).

(** ** Python primitives used by the module *)

(** [a / b] on Python numbers. *)
Definition truediv (a b : R) : result R :=
  if Req_dec_T b 0 then Raise ZeroDivisionError else Ret (a / b).

(** [math.log]. *)
Definition log (x : R) : result R :=
  if Rlt_dec 0 x then Ret (ln x) else Raise (ValueError "math domain error").

(** [str.lower], character by character. *)
Definition lower_ascii (c : ascii) : ascii :=
  let k := nat_of_ascii c in
  if (andb (65 <=? k) (k <=? 90))%nat then ascii_of_nat (k + 32) else c.

Fixpoint lower (s : string) : string :=
  match s with
  | EmptyString => EmptyString
  | String c rest => String (lower_ascii c) (lower rest)
  end.

(** [x in l] for a list of strings. *)
Definition str_in (x : string) (l : list string) : bool :=
  existsb (String.eqb x) l.

(** ** scipy.stats.norm *)

Module norm.

(** Density of the standard normal law. *)
Definition pdf (x : R) : R := exp (- (x ^ 2) / 2) / sqrt (2 * PI).

Lemma pdf_continuity : continuity pdf.
Proof.
  unfold pdf. reg.
Qed.

Lemma pdf_integrable (a b : R) : Riemann_integrable pdf a b.
Proof.
  destruct (Rle_dec a b) as [Hab | Hab].
  - apply continuity_implies_RiemannInt; [exact Hab | intros; apply pdf_continuity].
  - apply RiemannInt_P1.
    apply continuity_implies_RiemannInt; [lra | intros; apply pdf_continuity].
Qed.

(** Distribution function of the standard normal law:
    Phi(x) = 1/2 + integral of the density from 0 to x. *)
Definition cdf (x : R) : R := 1 / 2 + RiemannInt (pdf_integrable 0 x).

End norm.

(** ** The class EuropeanOption *)

(** The six attributes assigned from the constructor's arguments. *)
Record params : Type := mkParams
  { _S0 : R; _K : R; _T : R; _r : R; _sigma : R; _type : string }.

(** An instance: the six attributes and the cached [_price]. *)
Record EuropeanOption : Type := mkOption
  { fields :> params; _price : R }.

Definition type_error : exn := ValueError "Option type can only be a Call or a Put.".

(** [_d1_d2(self)].  For a maturity below 0, or when sigma sqrt(T) is 0,
    NumPy computes nan or inf and goes on; the real numbers returned here
    stand for the code's d1 and d2 only when T > 0 and sigma <> 0, and the
    theorems on the formulas of d1, d2, the price and the Greeks are stated
    for T > 0 and sigma > 0.  Which exception is raised, and what is stored,
    does not depend on it. *)
Definition _d1_d2 (self : params) : result (R * R) :=
  q <- truediv (_S0 self) (_K self) ;;
  l <- log q ;;
  let d1 := (l + (_r self + _sigma self ^ 2 / 2) * _T self)
            / (_sigma self * sqrt (_T self)) in
  Ret (d1, d1 - _sigma self * sqrt (_T self)).

(** [black_and_scholes(self)] *)
Definition black_and_scholes (self : params) : result R :=
  '(d1, d2) <- _d1_d2 self ;;
  let N := fun x => norm.cdf x in
  if (lower (_type self) =? "call")%string then
    Ret (_S0 self * N d1 - _K self * exp (- _r self * _T self) * N d2)
  else if (lower (_type self) =? "put")%string then
    Ret (_K self * exp (- _r self * _T self) * N (- d2) - _S0 self * N (- d1))
  else Raise type_error.

(** [__init__(self, S0, K, T, r, sigma, type)]: the constructor call
    [EuropeanOption(S0, K, T, r, sigma, type)]. *)
Definition __init__ (S0 K T r sigma : R) (type : string) : result EuropeanOption :=
  let self := mkParams S0 K T r sigma type in
  price <- black_and_scholes self ;;
  Ret (mkOption self price).

(** The Greeks.  A method that falls off its last [if] returns [None]. *)
Definition delta (self : params) : result (option R) :=
  let N := norm.cdf in
  '(d1, _) <- _d1_d2 self ;;
  if (_type self =? "call")%string then Ret (Some (N d1))
  else if (_type self =? "put")%string then Ret (Some (N d1 - 1))
  else Ret None.

Definition gamma (self : params) : result R :=
  let n := norm.pdf in
  '(d1, _) <- _d1_d2 self ;;
  Ret (n d1 / (_S0 self * _sigma self * _sigma self * sqrt (_T self))).

Definition vega (self : params) : result R :=
  let n := norm.pdf in
  '(d1, _) <- _d1_d2 self ;;
  Ret (_S0 self * _sigma self * sqrt (_T self) * n d1).

Definition theta (self : params) : result (option R) :=
  '(d1, d2) <- _d1_d2 self ;;
  let N := norm.cdf in
  let n := norm.pdf in
  if (_type self =? "call")%string then
    Ret (Some (- _S0 self * _sigma self * n d1 / (2 * sqrt (_T self))
               - _r self * _K self * exp (- _r self * _T self) * N d2))
  else if (_type self =? "put")%string then
    Ret (Some (- _S0 self * _sigma self * n d1 / (2 * sqrt (_T self))
               + _r self * _K self * exp (- _r self * _T self) * N (- d2)))
  else Ret None.

Definition rho (self : params) : result (option R) :=
  '(_, d2) <- _d1_d2 self ;;
  let N := norm.cdf in
  if (_type self =? "call")%string then
    Ret (Some (_K self * _T self * exp (- _r self * _T self) * N d2))
  else if (_type self =? "put")%string then
    Ret (Some (- _K self * _T self * exp (- _r self * _T self) * N (- d2)))
  else Ret None.

(** *** Property setters

    A setter runs on an instance and leaves an instance behind even when it
    raises: an attribute assigned before the exception stays assigned. *)

Definition Method (A : Type) : Type := EuropeanOption -> EuropeanOption * result A.

Definition mret {A : Type} (a : A) : Method A := fun self => (self, Ret a).

Definition mraise {A : Type} (e : exn) : Method A := fun self => (self, Raise e).

Definition mbind {A B : Type} (m : Method A) (k : A -> Method B) : Method B :=
  fun self =>
    match m self with
    | (self', Ret a) => k a self'
    | (self', Raise e) => (self', Raise e)
    end.

(** Evaluate a method that only reads the instance. *)
Definition call {A : Type} (f : params -> result A) : Method A :=
  fun self => (self, f self).

(** Attribute assignment [self._x = v]. *)
Definition assign (upd : params -> params) : Method unit :=
  fun self => (mkOption (upd self) (_price self), Ret tt).

Definition assign_price (p : R) : Method unit :=
  fun self => (mkOption (fields self) p, Ret tt).

Notation "x <~ m ;; k" := (mbind m (fun x => k))
  (at level 61, m at next level, right associativity).
Notation "m ;;; k" := (mbind m (fun _ => k))
  (at level 61, right associativity).

Definition with_S0 (v : R) (f : params) : params :=
  mkParams v (_K f) (_T f) (_r f) (_sigma f) (_type f).
Definition with_K (v : R) (f : params) : params :=
  mkParams (_S0 f) v (_T f) (_r f) (_sigma f) (_type f).
Definition with_T (v : R) (f : params) : params :=
  mkParams (_S0 f) (_K f) v (_r f) (_sigma f) (_type f).
Definition with_r (v : R) (f : params) : params :=
  mkParams (_S0 f) (_K f) (_T f) v (_sigma f) (_type f).
Definition with_sigma (v : R) (f : params) : params :=
  mkParams (_S0 f) (_K f) (_T f) (_r f) v (_type f).
Definition with_type (v : string) (f : params) : params :=
  mkParams (_S0 f) (_K f) (_T f) (_r f) (_sigma f) v.

Definition S0_setter (value : R) : Method unit :=
  assign (with_S0 value) ;;;
  p <~ call black_and_scholes ;; assign_price p.

Definition K_setter (value : R) : Method unit :=
  assign (with_K value) ;;;
  p <~ call black_and_scholes ;; assign_price p.

Definition T_setter (value : R) : Method unit :=
  assign (with_T value) ;;;
  p <~ call black_and_scholes ;; assign_price p.

Definition r_setter (value : R) : Method unit :=
  assign (with_r value) ;;;
  p <~ call black_and_scholes ;; assign_price p.

Definition sigma_setter (value : R) : Method unit :=
  assign (with_sigma value) ;;;
  p <~ call black_and_scholes ;; assign_price p.

Definition type_setter (value : string) : Method unit :=
  if negb (str_in (lower value) ["call"; "put"]%string) then mraise type_error
  else
    assign (with_type (lower value)) ;;;
    p <~ call black_and_scholes ;; assign_price p.

(** ** implied_volatility *)

(** What [least_squares] hands back: the final iterate [x], the reason the
    iteration stopped ([status]: -1 and 0 are failures, 1 to 4 are the
    convergence criteria) and [success], true when a criterion was met. *)
Record OptimizeResult : Type := mkResult
  { x : list R; status : Z; success : bool }.

(** [a[i]] on a sequence. *)
Definition getitem (a : list R) (i : nat) : result R :=
  match nth_error a i with
  | Some v => Ret v
  | None => Raise IndexError
  end.

Section ImpliedVolatility.

(** [scipy.optimize.least_squares(fun, x0)] with every other argument at its
    default.  The objective may raise, and so may the solver. *)
Variable least_squares : (R -> result R) -> list R -> result OptimizeResult.

Definition objective (market_price S0 K T r : R) (type : string) (sigma : R) : result R :=
  o <- __init__ S0 K T r sigma type ;;
  Ret (Rabs (market_price - _price o)).

Definition implied_volatility (market_price S0 K T r : R) (type : string) : result R :=
  let obj := objective market_price S0 K T r type in
  res <- least_squares obj [1 / 10] ;;
  getitem (x res) 0.

End ImpliedVolatility.

(** ** All six property assignments at once *)

Inductive assignment : Type :=
| Set_S0 (value : R)
| Set_K (value : R)
| Set_T (value : R)
| Set_r (value : R)
| Set_sigma (value : R)
| Set_type (value : string).

(** [self.<attr> = value] *)
Definition setattr (a : assignment) : Method unit :=
  match a with
  | Set_S0 v => S0_setter v
  | Set_K v => K_setter v
  | Set_T v => T_setter v
  | Set_r v => r_setter v
  | Set_sigma v => sigma_setter v
  | Set_type v => type_setter v
  end.

(** The attribute values an accepted assignment leaves behind. *)
Definition assigned (a : assignment) (f : params) : params :=
  match a with
  | Set_S0 v => with_S0 v f
  | Set_K v => with_K v f
  | Set_T v => with_T v f
  | Set_r v => with_r v f
  | Set_sigma v => with_sigma v f
  | Set_type v => with_type (lower v) f
  end.

(** ** The formulas of the specification

    Written from the specification's text, to be compared with the code. *)

Definition spec_d1 (S0 K T r sigma : R) : R :=
  (ln (S0 / K) + (r + sigma ^ 2 / 2) * T) / (sigma * sqrt T).

Definition spec_d2 (S0 K T r sigma : R) : R :=
  spec_d1 S0 K T r sigma - sigma * sqrt T.

Definition spec_call (S0 K T r sigma : R) : R :=
  S0 * norm.cdf (spec_d1 S0 K T r sigma)
  - K * exp (- r * T) * norm.cdf (spec_d2 S0 K T r sigma).

Definition spec_put (S0 K T r sigma : R) : R :=
  K * exp (- r * T) * norm.cdf (- spec_d2 S0 K T r sigma)
  - S0 * norm.cdf (- spec_d1 S0 K T r sigma).

Definition spec_vega (S0 K T r sigma : R) : R :=
  S0 * sigma * sqrt T * norm.pdf (spec_d1 S0 K T r sigma).

(** ** Reading results as numbers, and runs of assignments *)

(** The number a call returned, 0 when it raised: lets a method be read as a
    real function of one attribute. *)
Definition value (res : result R) : R :=
  match res with
  | Ret v => v
  | Raise _ => 0
  end.

(** The same for a method that may return [None]. *)
Definition number (res : result (option R)) : R :=
  match res with
  | Ret (Some v) => v
  | _ => 0
  end.

(** A run of assignment statements [self.a1 = v1; self.a2 = v2; ...]; the
    first one that raises ends the run. *)
Fixpoint run (l : list assignment) : Method unit :=
  match l with
  | [] => mret tt
  | a :: rest => setattr a ;;; run rest
  end.

(** * Properties *)

(** ** The normal law *)

Module norm_facts.

Lemma pdf_pos (x : R) : 0 < norm.pdf x.
Proof.
  unfold norm.pdf. apply Rdiv_lt_0_compat.
  - apply exp_pos.
  - apply sqrt_lt_R0. generalize PI_RGT_0. lra.
Qed.

Lemma pdf_even (x : R) : norm.pdf (- x) = norm.pdf x.
Proof.
  unfold norm.pdf. replace ((- x) ^ 2) with (x ^ 2) by ring. reflexivity.
Qed.

Lemma cdf_0 : norm.cdf 0 = 1 / 2.
Proof.
  unfold norm.cdf. rewrite RiemannInt_P9. lra.
Qed.

(** The distribution function is a primitive of the density. *)
Lemma cdf_derivable_pt_lim (x : R) : derivable_pt_lim norm.cdf x (norm.pdf x).
Proof.
  set (a := Rmin 0 x - 1). set (b := Rmax 0 x + 1).
  assert (Ha0 : a < 0) by (unfold a; generalize (Rmin_l 0 x); lra).
  assert (Hax : a < x) by (unfold a; generalize (Rmin_r 0 x); lra).
  assert (Hxb : x < b) by (unfold b; generalize (Rmax_r 0 x); lra).
  assert (h : a <= b) by lra.
  assert (C0 : forall y, a <= y <= b -> continuity_pt norm.pdf y)
    by (intros; apply norm.pdf_continuity).
  pose (c := 1 / 2 - RiemannInt (norm.pdf_integrable a 0)).
  apply (derivable_pt_lim_locally_ext
           (fun y => primitive h (FTC_P1 h C0) y + c) norm.cdf x a b).
  - lra.
  - intros z [Hz1 Hz2]. unfold primitive, norm.cdf, c.
    destruct (Rle_dec a z) as [Haz | Haz]; [| lra].
    destruct (Rle_dec z b) as [Hzb | Hzb]; [| lra].
    rewrite <- (RiemannInt_P26 (norm.pdf_integrable a 0) (norm.pdf_integrable 0 z)
                  (FTC_P1 h C0 Haz Hzb)).
    lra.
  - replace (norm.pdf x) with (norm.pdf x + 0) by lra.
    apply (derivable_pt_lim_plus (primitive h (FTC_P1 h C0)) (fct_cte c)).
    + apply RiemannInt_P27. lra.
    + apply derivable_pt_lim_const.
Qed.

Lemma cdf_derivable : derivable norm.cdf.
Proof.
  intro x. exists (norm.pdf x). apply cdf_derivable_pt_lim.
Qed.

(** Phi(x) + Phi(-x) = 1. *)
Lemma cdf_symmetry (x : R) : norm.cdf x + norm.cdf (- x) = 1.
Proof.
  set (g := fun y => norm.cdf y + norm.cdf (- y)).
  assert (Hg : forall y, derivable_pt_lim g y 0).
  { intro y. unfold g.
    replace 0 with (norm.pdf y + norm.pdf (- y) * (- 1))
      by (rewrite pdf_even; ring).
    apply (derivable_pt_lim_plus norm.cdf (comp norm.cdf (- id))).
    - apply cdf_derivable_pt_lim.
    - apply derivable_pt_lim_comp.
      + apply derivable_pt_lim_opp. apply derivable_pt_lim_id.
      + apply cdf_derivable_pt_lim. }
  assert (pr : derivable g) by (intro y; exists 0; apply Hg).
  assert (Hc : constant g).
  { apply (null_derivative_1 g pr). intro y.
    apply derive_pt_eq_0. apply Hg. }
  change (g x = 1). rewrite (Hc x 0). unfold g.
  rewrite Ropp_0, cdf_0. lra.
Qed.

Lemma cdf_increasing (x y : R) : x <= y -> norm.cdf x <= norm.cdf y.
Proof.
  apply (nonneg_derivative_1 norm.cdf cdf_derivable).
  intro z. rewrite (derive_pt_eq_0 _ _ _ _ (cdf_derivable_pt_lim z)).
  left. apply pdf_pos.
Qed.

End norm_facts.

(** ** Evaluating the primitives *)

Lemma truediv_Ret (a b : R) : b <> 0 -> truediv a b = Ret (a / b).
Proof.
  intro Hb. unfold truediv. destruct (Req_dec_T b 0) as [E | _]; [contradiction | reflexivity].
Qed.

Lemma truediv_zero (a : R) : truediv a 0 = Raise ZeroDivisionError.
Proof.
  unfold truediv. destruct (Req_dec_T 0 0) as [_ | N]; [reflexivity | now elim N].
Qed.

Lemma log_Ret (x : R) : 0 < x -> log x = Ret (ln x).
Proof.
  intro Hx. unfold log. destruct (Rlt_dec 0 x) as [_ | N]; [reflexivity | contradiction].
Qed.

Lemma log_domain (x : R) : x <= 0 -> log x = Raise (ValueError "math domain error").
Proof.
  intro Hx. unfold log. destruct (Rlt_dec 0 x) as [P | _]; [lra | reflexivity].
Qed.

Lemma lower_ascii_idem (c : ascii) : lower_ascii (lower_ascii c) = lower_ascii c.
Proof.
  destruct c as [[] [] [] [] [] [] [] []]; reflexivity.
Qed.

Lemma lower_idem (s : string) : lower (lower s) = lower s.
Proof.
  induction s as [| c s IH]; simpl; [reflexivity |].
  now rewrite lower_ascii_idem, IH.
Qed.

Lemma str_in_call_put (s : string) :
  str_in s ["call"; "put"]%string = true <-> s = "call"%string \/ s = "put"%string.
Proof.
  unfold str_in. simpl. rewrite orb_false_r, orb_true_iff, !String.eqb_eq. tauto.
Qed.

(** ** Evaluating the methods *)

Lemma d1_d2_Ret (self : params) :
  0 < _S0 self -> 0 < _K self ->
  _d1_d2 self =
    Ret (spec_d1 (_S0 self) (_K self) (_T self) (_r self) (_sigma self),
         spec_d2 (_S0 self) (_K self) (_T self) (_r self) (_sigma self)).
Proof.
  intros HS HK. unfold _d1_d2.
  rewrite truediv_Ret by lra. simpl.
  rewrite log_Ret by (apply Rdiv_lt_0_compat; assumption). simpl.
  reflexivity.
Qed.

Lemma black_and_scholes_call (self : params) :
  0 < _S0 self -> 0 < _K self -> lower (_type self) = "call"%string ->
  black_and_scholes self =
    Ret (spec_call (_S0 self) (_K self) (_T self) (_r self) (_sigma self)).
Proof.
  intros HS HK Hty. unfold black_and_scholes.
  rewrite d1_d2_Ret by assumption. simpl. rewrite Hty. reflexivity.
Qed.

Lemma black_and_scholes_put (self : params) :
  0 < _S0 self -> 0 < _K self -> lower (_type self) = "put"%string ->
  black_and_scholes self =
    Ret (spec_put (_S0 self) (_K self) (_T self) (_r self) (_sigma self)).
Proof.
  intros HS HK Hty. unfold black_and_scholes.
  rewrite d1_d2_Ret by assumption. simpl. rewrite Hty. reflexivity.
Qed.

Lemma black_and_scholes_bad_type (self : params) :
  0 < _S0 self -> 0 < _K self ->
  str_in (lower (_type self)) ["call"; "put"]%string = false ->
  black_and_scholes self = Raise type_error.
Proof.
  intros HS HK Hty. unfold black_and_scholes.
  rewrite d1_d2_Ret by assumption. simpl.
  unfold str_in in Hty. simpl in Hty.
  rewrite orb_false_r in Hty. apply orb_false_iff in Hty as [H1 H2].
  rewrite H1, H2. reflexivity.
Qed.

(** A price is only ever returned for a side that lowers to call or put. *)
Lemma black_and_scholes_Ret_type (self : params) (p : R) :
  black_and_scholes self = Ret p ->
  str_in (lower (_type self)) ["call"; "put"]%string = true.
Proof.
  unfold black_and_scholes. destruct (_d1_d2 self) as [[d1 d2] | e]; simpl; [| discriminate].
  intro H. apply str_in_call_put.
  destruct (lower (_type self) =? "call")%string eqn:E1.
  - left. now apply String.eqb_eq.
  - destruct (lower (_type self) =? "put")%string eqn:E2; [| discriminate].
    right. now apply String.eqb_eq.
Qed.

(** An accepted assignment stores the value, then the fresh price. *)
Lemma setattr_Ret (a : assignment) (self : EuropeanOption) (p : R) :
  black_and_scholes (assigned a self) = Ret p ->
  setattr a self = (mkOption (assigned a self) p, Ret tt).
Proof.
  intro Hp.
  destruct a as [v | v | v | v | v | v]; simpl in *;
    try (unfold S0_setter, K_setter, T_setter, r_setter, sigma_setter,
           mbind, assign, call, assign_price; simpl; rewrite Hp; reflexivity).
  unfold type_setter.
  pose proof (black_and_scholes_Ret_type _ _ Hp) as Hin.
  change (str_in (lower (lower v)) ["call"; "put"]%string = true) in Hin.
  rewrite lower_idem in Hin. rewrite Hin. simpl.
  unfold mbind, assign, call, assign_price; simpl. rewrite Hp. reflexivity.
Qed.

(** A rejected side raises before anything is assigned. *)
Lemma type_setter_rejects (value : string) (self : EuropeanOption) :
  str_in (lower value) ["call"; "put"]%string = false ->
  type_setter value self = (self, Raise type_error).
Proof.
  intro Hin. unfold type_setter. rewrite Hin. reflexivity.
Qed.

Lemma str_in_false (s : string) :
  s <> "call"%string -> s <> "put"%string ->
  str_in s ["call"; "put"]%string = false.
Proof.
  intros H1 H2. destruct (str_in s ["call"; "put"]%string) eqn:E; [| reflexivity].
  apply str_in_call_put in E. tauto.
Qed.

(** The sample contract of the test suite. *)
Lemma init_sample_call :
  __init__ 100 100 1 (5 / 100) (2 / 10) "call" =
    Ret (mkOption (mkParams 100 100 1 (5 / 100) (2 / 10) "call")
           (spec_call 100 100 1 (5 / 100) (2 / 10))).
Proof.
  unfold __init__. rewrite black_and_scholes_call; simpl; try lra; reflexivity.
Qed.

(** ** The price as a function of the volatility *)

Section Volatility.

Variables S0 K T r : R.
Hypothesis S0_pos : 0 < S0.
Hypothesis K_pos : 0 < K.
Hypothesis T_pos : 0 < T.

Let d1 (sigma : R) : R := spec_d1 S0 K T r sigma.
Let d2 (sigma : R) : R := spec_d2 S0 K T r sigma.

Lemma sqrt_T_pos : 0 < sqrt T.
Proof. apply sqrt_lt_R0. exact T_pos. Qed.

(** sigma sqrt(T) d1 = ln(S0/K) + (r + sigma^2/2) T *)
Lemma d1_scaled (sigma : R) :
  0 < sigma -> d1 sigma * (sigma * sqrt T) = ln (S0 / K) + (r + sigma ^ 2 / 2) * T.
Proof.
  intro Hs. unfold d1, spec_d1. field.
  split; apply Rgt_not_eq; [apply sqrt_T_pos | exact Hs].
Qed.

(** K e^(-rT) n(d2) = S0 n(d1) *)
Lemma discounted_strike_density (sigma : R) :
  0 < sigma ->
  K * exp (- r * T) * norm.pdf (d2 sigma) = S0 * norm.pdf (d1 sigma).
Proof.
  intro Hs. unfold norm.pdf.
  assert (HS : K * exp (ln (S0 / K)) = S0).
  { rewrite exp_ln by (apply Rdiv_lt_0_compat; assumption). field. lra. }
  assert (He : exp (- r * T) * exp (- d2 sigma ^ 2 / 2)
               = exp (ln (S0 / K)) * exp (- d1 sigma ^ 2 / 2)).
  { rewrite <- !exp_plus. f_equal.
    unfold d2, spec_d2. fold (d1 sigma).
    pose proof (d1_scaled sigma Hs) as H1.
    pose proof (sqrt_sqrt T (Rlt_le _ _ T_pos)) as H2.
    replace ((d1 sigma - sigma * sqrt T) ^ 2)
      with (d1 sigma ^ 2 - 2 * (d1 sigma * (sigma * sqrt T))
            + sigma ^ 2 * (sqrt T * sqrt T)) by ring.
    rewrite H1, H2. field. }
  transitivity (K * (exp (- r * T) * exp (- d2 sigma ^ 2 / 2)) / sqrt (2 * PI)).
  { unfold Rdiv. ring. }
  rewrite He.
  transitivity (K * exp (ln (S0 / K)) * (exp (- d1 sigma ^ 2 / 2) / sqrt (2 * PI))).
  { unfold Rdiv. ring. }
  rewrite HS. reflexivity.
Qed.

Lemma d1_derivable (sigma : R) : 0 < sigma -> derivable_pt d1 sigma.
Proof.
  intro Hs. unfold d1, spec_d1. reg.
  apply Rgt_not_eq. apply Rmult_lt_0_compat; [exact Hs | apply sqrt_T_pos].
Qed.

(** The derivative of the call price in the volatility is S0 sqrt(T) n(d1). *)
Lemma spec_call_derivable_pt_lim (sigma : R) :
  0 < sigma ->
  derivable_pt_lim (spec_call S0 K T r) sigma (S0 * sqrt T * norm.pdf (d1 sigma)).
Proof.
  intro Hs.
  destruct (d1_derivable sigma Hs) as [l Hl].
  change (derivable_pt_lim d1 sigma l) in Hl.
  assert (Hd2 : derivable_pt_lim (d1 - (id * fct_cte (sqrt T)))%F sigma
                  (l - (1 * fct_cte (sqrt T) sigma + id sigma * 0))).
  { apply derivable_pt_lim_minus; [exact Hl |].
    apply derivable_pt_lim_mult;
      [apply derivable_pt_lim_id | apply derivable_pt_lim_const]. }
  pose (c := K * exp (- r * T)).
  apply (derivable_pt_lim_ext
           (mult_real_fct S0 (comp norm.cdf d1)
            - mult_real_fct c (comp norm.cdf (d1 - (id * fct_cte (sqrt T)))))%F).
  { intro z. reflexivity. }
  replace (S0 * sqrt T * norm.pdf (d1 sigma))
    with (S0 * (norm.pdf (d1 sigma) * l)
          - c * (norm.pdf (d2 sigma)
                 * (l - (1 * fct_cte (sqrt T) sigma + id sigma * 0)))).
  2:{ unfold fct_cte, id.
      replace (c * (norm.pdf (d2 sigma) * (l - (1 * sqrt T + sigma * 0))))
        with (c * norm.pdf (d2 sigma) * (l - sqrt T)) by ring.
      unfold c. rewrite discounted_strike_density by exact Hs. ring. }
  apply derivable_pt_lim_minus; apply derivable_pt_lim_scal;
    apply derivable_pt_lim_comp; try assumption;
    apply norm_facts.cdf_derivable_pt_lim.
Qed.

(** The call price increases strictly with the volatility. *)
Lemma spec_call_increasing (s1 s2 : R) :
  0 < s1 -> s1 < s2 -> spec_call S0 K T r s1 < spec_call S0 K T r s2.
Proof.
  intros H1 H12.
  destruct (MVT_cor2 (spec_call S0 K T r)
              (fun s => S0 * sqrt T * norm.pdf (d1 s)) s1 s2 H12)
    as (c & Hc & Hin).
  { intros c Hc. apply spec_call_derivable_pt_lim. lra. }
  assert (0 < S0 * sqrt T * norm.pdf (d1 c) * (s2 - s1)).
  { apply Rmult_lt_0_compat; [| lra].
    apply Rmult_lt_0_compat; [| apply norm_facts.pdf_pos].
    apply Rmult_lt_0_compat; [exact S0_pos | apply sqrt_T_pos]. }
  lra.
Qed.

(** Put-call parity of the two formulas. *)
Lemma spec_parity (sigma : R) :
  spec_call S0 K T r sigma - spec_put S0 K T r sigma = S0 - K * exp (- r * T).
Proof.
  unfold spec_call, spec_put.
  pose proof (norm_facts.cdf_symmetry (spec_d1 S0 K T r sigma)) as H1.
  pose proof (norm_facts.cdf_symmetry (spec_d2 S0 K T r sigma)) as H2.
  replace (norm.cdf (- spec_d1 S0 K T r sigma))
    with (1 - norm.cdf (spec_d1 S0 K T r sigma)) by lra.
  replace (norm.cdf (- spec_d2 S0 K T r sigma))
    with (1 - norm.cdf (spec_d2 S0 K T r sigma)) by lra.
  ring.
Qed.

Lemma spec_put_increasing (s1 s2 : R) :
  0 < s1 -> s1 < s2 -> spec_put S0 K T r s1 < spec_put S0 K T r s2.
Proof.
  intros H1 H12.
  pose proof (spec_call_increasing s1 s2 H1 H12).
  pose proof (spec_parity s1). pose proof (spec_parity s2). lra.
Qed.

End Volatility.

(** ** The objective of the implied-volatility search *)

Lemma increasing_injective (price : R -> R) (s1 s2 : R) :
  (forall a b, 0 < a -> a < b -> price a < price b) ->
  0 < s1 -> 0 < s2 -> price s1 = price s2 -> s1 = s2.
Proof.
  intros Hinc H1 H2 Heq.
  destruct (Rtotal_order s1 s2) as [Hlt | [-> | Hgt]]; [| reflexivity |].
  - pose proof (Hinc s1 s2 H1 Hlt). lra.
  - pose proof (Hinc s2 s1 H2 Hgt). lra.
Qed.

(** Among the positive volatilities, the one that produced the price is the
    only zero of the objective. *)
Lemma objective_zero_unique (S0 K T r : R) (side : string) (sigma0 sigma p0 : R) :
  0 < S0 -> 0 < K -> 0 < T ->
  lower side = "call"%string \/ lower side = "put"%string ->
  0 < sigma0 -> 0 < sigma ->
  black_and_scholes (mkParams S0 K T r sigma0 side) = Ret p0 ->
  objective p0 S0 K T r side sigma = Ret 0 <-> sigma = sigma0.
Proof.
  intros HS HK HT Hside H0 Hsig Hp0. unfold objective, __init__.
  destruct Hside as [Hc | Hp].
  - rewrite black_and_scholes_call in Hp0 by assumption. simpl in Hp0.
    rewrite (black_and_scholes_call (mkParams S0 K T r sigma side)) by assumption.
    simpl. injection Hp0 as <-. split.
    + intro H. injection H as H.
      apply (increasing_injective (spec_call S0 K T r) sigma sigma0);
        try assumption.
      * intros a b Ha Hab. apply spec_call_increasing; assumption.
      * destruct (Req_dec (spec_call S0 K T r sigma0) (spec_call S0 K T r sigma))
          as [E | N]; [now symmetry |].
        apply Rminus_eq_contra in N. apply Rabs_no_R0 in N. contradiction.
    + intros ->. rewrite Rminus_diag, Rabs_R0. reflexivity.
  - rewrite black_and_scholes_put in Hp0 by assumption. simpl in Hp0.
    rewrite (black_and_scholes_put (mkParams S0 K T r sigma side)) by assumption.
    simpl. injection Hp0 as <-. split.
    + intro H. injection H as H.
      apply (increasing_injective (spec_put S0 K T r) sigma sigma0);
        try assumption.
      * intros a b Ha Hab. apply spec_put_increasing; assumption.
      * destruct (Req_dec (spec_put S0 K T r sigma0) (spec_put S0 K T r sigma))
          as [E | N]; [now symmetry |].
        apply Rminus_eq_contra in N. apply Rabs_no_R0 in N. contradiction.
    + intros ->. rewrite Rminus_diag, Rabs_R0. reflexivity.
Qed.

(** ** The claims *)

(** C1. For spot, strike, maturity and volatility all positive and a side
    that lowers to 'call' (resp. 'put'), construction succeeds and the price
    it stores is S0 N(d1) - K e^(-rT) N(d2) (resp. K e^(-rT) N(-d2) - S0 N(-d1)),
    with d1 = (ln(S0/K) + (r + sigma^2/2) T) / (sigma sqrt T),
    d2 = d1 - sigma sqrt T and N the standard normal distribution function. *)
Theorem C1_construction_price (S0 K T r sigma : R) (ty : string) :
  0 < S0 -> 0 < K -> 0 < T -> 0 < sigma ->
  let N := norm.cdf in
  let d1 := (ln (S0 / K) + (r + sigma ^ 2 / 2) * T) / (sigma * sqrt T) in
  let d2 := d1 - sigma * sqrt T in
  (lower ty = "call"%string ->
   exists o, __init__ S0 K T r sigma ty = Ret o /\
             black_and_scholes o = Ret (_price o) /\
             _price o = S0 * N d1 - K * exp (- r * T) * N d2) /\
  (lower ty = "put"%string ->
   exists o, __init__ S0 K T r sigma ty = Ret o /\
             black_and_scholes o = Ret (_price o) /\
             _price o = K * exp (- r * T) * N (- d2) - S0 * N (- d1)).
Proof.
  intros HS HK HT Hsig N d1 d2. split; intro Hty.
  - exists (mkOption (mkParams S0 K T r sigma ty) (spec_call S0 K T r sigma)).
    unfold __init__.
    rewrite (black_and_scholes_call (mkParams S0 K T r sigma ty)) by assumption.
    simpl. repeat split.
    apply (black_and_scholes_call (mkParams S0 K T r sigma ty)); assumption.
  - exists (mkOption (mkParams S0 K T r sigma ty) (spec_put S0 K T r sigma)).
    unfold __init__.
    rewrite (black_and_scholes_put (mkParams S0 K T r sigma ty)) by assumption.
    simpl. repeat split.
    apply (black_and_scholes_put (mkParams S0 K T r sigma ty)); assumption.
Qed.

Lemma C1_construction_price_witness :
  exists o, __init__ 100 100 1 (5 / 100) (2 / 10) "Call" = Ret o /\
            black_and_scholes o = Ret (_price o) /\
            _price o =
              100 * norm.cdf ((ln (100 / 100) + (5 / 100 + (2 / 10) ^ 2 / 2) * 1)
                              / (2 / 10 * sqrt 1))
              - 100 * exp (- (5 / 100) * 1) *
                norm.cdf ((ln (100 / 100) + (5 / 100 + (2 / 10) ^ 2 / 2) * 1)
                          / (2 / 10 * sqrt 1) - 2 / 10 * sqrt 1).
Proof.
  apply (C1_construction_price 100 100 1 (5 / 100) (2 / 10) "Call"); try lra.
  reflexivity.
Defined.

(** C2. Whichever of the six attributes is assigned, if the pricing formula
    is defined on the attribute values after the assignment, the setter
    returns normally and leaves exactly those values together with the price
    computed from them: the stored price is [black_and_scholes] of the
    current attributes. *)
Theorem C2_setter_refreshes_price (a : assignment) (self : EuropeanOption) (p : R) :
  black_and_scholes (assigned a self) = Ret p ->
  let after := fst (setattr a self) in
  snd (setattr a self) = Ret tt /\
  fields after = assigned a self /\
  _price after = p /\
  black_and_scholes after = Ret (_price after).
Proof.
  intros Hp after. unfold after. rewrite (setattr_Ret a self p Hp). simpl.
  repeat split. exact Hp.
Qed.

Lemma C2_setter_refreshes_price_witness :
  let self := mkOption (mkParams 100 100 1 (5 / 100) (2 / 10) "call")
                (spec_call 100 100 1 (5 / 100) (2 / 10)) in
  let after := fst (setattr (Set_S0 110) self) in
  snd (setattr (Set_S0 110) self) = Ret tt /\
  fields after = mkParams 110 100 1 (5 / 100) (2 / 10) "call" /\
  _price after = spec_call 110 100 1 (5 / 100) (2 / 10) /\
  black_and_scholes after = Ret (_price after).
Proof.
  apply (C2_setter_refreshes_price (Set_S0 110)
           (mkOption (mkParams 100 100 1 (5 / 100) (2 / 10) "call")
              (spec_call 100 100 1 (5 / 100) (2 / 10)))
           (spec_call 110 100 1 (5 / 100) (2 / 10))).
  apply black_and_scholes_call; simpl; try lra; reflexivity.
Defined.

(** When the formula is not defined on the new value the setter raises
    after the attribute was assigned: the value stays, with the old price. *)
Lemma S0_setter_zero_keeps_old_price (self : EuropeanOption) :
  _K self <> 0 ->
  S0_setter 0 self =
    (mkOption (with_S0 0 self) (_price self), Raise (ValueError "math domain error")).
Proof.
  intro HK. unfold S0_setter, mbind, assign, call, black_and_scholes, _d1_d2. simpl.
  rewrite truediv_Ret by assumption. simpl.
  rewrite log_domain by (unfold Rdiv; rewrite Rmult_0_l; lra).
  reflexivity.
Qed.

(** C3. For positive spot, strike, maturity and volatility, gamma is
    n(d1) / (S0 sigma^2 sqrt T) and vega is S0 sigma sqrt T n(d1), with n the
    standard normal density; neither depends on the side. *)
Theorem C3_gamma_vega (self : params) :
  0 < _S0 self -> 0 < _K self -> 0 < _T self -> 0 < _sigma self ->
  let S0 := _S0 self in
  let K := _K self in
  let T := _T self in
  let r := _r self in
  let sigma := _sigma self in
  let n := norm.pdf in
  let d1 := (ln (S0 / K) + (r + sigma ^ 2 / 2) * T) / (sigma * sqrt T) in
  gamma self = Ret (n d1 / (S0 * sigma ^ 2 * sqrt T)) /\
  vega self = Ret (S0 * sigma * sqrt T * n d1) /\
  (forall side : string,
      gamma (with_type side self) = gamma self /\
      vega (with_type side self) = vega self).
Proof.
  intros HS HK HT Hsig S0 K T r sigma n d1. repeat split.
  - unfold gamma. rewrite d1_d2_Ret by assumption. simpl.
    f_equal. fold S0 K T r sigma. unfold spec_d1. f_equal. ring.
  - unfold vega. rewrite d1_d2_Ret by assumption. reflexivity.
Qed.

Lemma C3_gamma_vega_witness :
  let self := mkParams 100 100 1 (5 / 100) (2 / 10) "call" in
  let d1 := (ln (100 / 100) + (5 / 100 + (2 / 10) ^ 2 / 2) * 1) / (2 / 10 * sqrt 1) in
  gamma self = Ret (norm.pdf d1 / (100 * (2 / 10) ^ 2 * sqrt 1)) /\
  vega self = Ret (100 * (2 / 10) * sqrt 1 * norm.pdf d1) /\
  (forall side : string,
      gamma (with_type side self) = gamma self /\
      vega (with_type side self) = vega self).
Proof.
  apply (C3_gamma_vega (mkParams 100 100 1 (5 / 100) (2 / 10) "call")); simpl; lra.
Defined.

(** C4. A side whose lowercase form is neither 'call' nor 'put' is rejected
    with the ValueError of the class, at construction (for a positive spot
    and strike, on which d1 and d2 are computed first) and in the type
    setter; the rejected assignment leaves the instance as it was, price
    included. *)
Theorem C4_invalid_side_rejected
  (S0 K T r sigma : R) (side : string) (self : EuropeanOption) :
  lower side <> "call"%string -> lower side <> "put"%string ->
  (0 < S0 -> 0 < K ->
   __init__ S0 K T r sigma side =
     Raise (ValueError "Option type can only be a Call or a Put.")) /\
  type_setter side self =
    (self, Raise (ValueError "Option type can only be a Call or a Put.")).
Proof.
  intros Hc Hp. pose proof (str_in_false _ Hc Hp) as Hin. split.
  - intros HS HK. unfold __init__.
    rewrite black_and_scholes_bad_type by assumption. reflexivity.
  - apply type_setter_rejects. exact Hin.
Qed.

Lemma C4_invalid_side_rejected_witness :
  let self := mkOption (mkParams 100 100 1 (5 / 100) (2 / 10) "call")
                (spec_call 100 100 1 (5 / 100) (2 / 10)) in
  __init__ 100 100 1 (5 / 100) (2 / 10) "invalid" =
    Raise (ValueError "Option type can only be a Call or a Put.") /\
  type_setter "invalid" self =
    (self, Raise (ValueError "Option type can only be a Call or a Put.")).
Proof.
  intro self.
  destruct (C4_invalid_side_rejected 100 100 1 (5 / 100) (2 / 10) "invalid" self)
    as [Hinit Hset]; try (simpl; discriminate).
  split; [apply Hinit; lra | exact Hset].
Defined.

(** The Greeks of a contract whose stored side is exactly 'call' or 'put'
    are all real numbers. *)
Lemma greeks_defined_on_lowercase_side (self : params) :
  0 < _S0 self -> 0 < _K self ->
  _type self = "call"%string \/ _type self = "put"%string ->
  (exists v, delta self = Ret (Some v)) /\
  (exists v, gamma self = Ret v) /\
  (exists v, vega self = Ret v) /\
  (exists v, theta self = Ret (Some v)) /\
  (exists v, rho self = Ret (Some v)).
Proof.
  intros HS HK Hty. unfold delta, gamma, vega, theta, rho.
  rewrite d1_d2_Ret by assumption. simpl.
  destruct Hty as [-> | ->]; simpl; repeat split; eexists; reflexivity.
Qed.

(** C5. A contract constructed with the side 'Call' is accepted and priced,
    yet delta, theta and rho compare the stored side with 'call' and 'put'
    without lowering it, fall through both tests and return None; gamma and
    vega do not look at the side. *)
Theorem C5_greeks_None_on_mixed_case_side :
  exists o : EuropeanOption,
    __init__ 100 100 1 (5 / 100) (2 / 10) "Call" = Ret o /\
    _price o = spec_call 100 100 1 (5 / 100) (2 / 10) /\
    delta o = Ret None /\
    theta o = Ret None /\
    rho o = Ret None /\
    (exists g, gamma o = Ret g) /\
    (exists v, vega o = Ret v).
Proof.
  exists (mkOption (mkParams 100 100 1 (5 / 100) (2 / 10) "Call")
            (spec_call 100 100 1 (5 / 100) (2 / 10))).
  split.
  { unfold __init__. rewrite black_and_scholes_call; simpl; try lra; reflexivity. }
  unfold delta, gamma, vega, theta, rho.
  rewrite d1_d2_Ret by (simpl; lra). simpl.
  repeat split; eexists; reflexivity.
Qed.

(** C10. The type setter normalises and the constructor does not.  A value
    that lowers to 'call' or 'put', in whatever case it is written, is
    accepted by the setter on an instance with positive spot and strike, and
    every assignment that returns has stored the lowered value, which is
    exactly 'call' or 'put'.  A side that lowers to 'call' or 'put' is
    accepted by the constructor for a positive spot and strike, and every
    construction that returns has stored the side as it was given. *)
Theorem C10_side_normalised_by_setter_only
  (self after' : EuropeanOption) (value : string)
  (S0 K T r sigma : R) (side : string) (o' : EuropeanOption) :
  (0 < _S0 self -> 0 < _K self ->
   lower value = "call"%string \/ lower value = "put"%string ->
   exists after : EuropeanOption,
     type_setter value self = (after, Ret tt) /\ _type after = lower value) /\
  (type_setter value self = (after', Ret tt) ->
   _type after' = lower value /\
   (_type after' = "call"%string \/ _type after' = "put"%string)) /\
  (0 < S0 -> 0 < K ->
   lower side = "call"%string \/ lower side = "put"%string ->
   exists o : EuropeanOption,
     __init__ S0 K T r sigma side = Ret o /\ _type o = side) /\
  (__init__ S0 K T r sigma side = Ret o' -> _type o' = side).
Proof.
  split; [| split; [| split]].
  - intros HS HK Hv.
    assert (Hbs : exists p, black_and_scholes (assigned (Set_type value) self) = Ret p).
    { destruct Hv as [Hc | Hp].
      - eexists. apply black_and_scholes_call; simpl; try assumption.
        now rewrite lower_idem.
      - eexists. apply black_and_scholes_put; simpl; try assumption.
        now rewrite lower_idem. }
    destruct Hbs as [p Hp].
    exists (mkOption (assigned (Set_type value) self) p). split.
    + apply (setattr_Ret (Set_type value) self p Hp).
    + reflexivity.
  - intro Hset. unfold type_setter in Hset.
    destruct (str_in (lower value) ["call"; "put"]%string) eqn:Hin; simpl in Hset.
    2:{ unfold mraise in Hset. discriminate. }
    unfold mbind, assign, call, assign_price in Hset. simpl in Hset.
    destruct (black_and_scholes (with_type (lower value) self)) as [p | e];
      [| discriminate].
    injection Hset as <-. simpl. split; [reflexivity |].
    now apply str_in_call_put.
  - intros HS HK Hs. unfold __init__.
    destruct Hs as [Hc | Hp].
    + rewrite (black_and_scholes_call (mkParams S0 K T r sigma side)) by assumption.
      simpl. eexists. split; reflexivity.
    + rewrite (black_and_scholes_put (mkParams S0 K T r sigma side)) by assumption.
      simpl. eexists. split; reflexivity.
  - intro Hinit. unfold __init__ in Hinit.
    destruct (black_and_scholes (mkParams S0 K T r sigma side)) as [p | e];
      simpl in Hinit; [| discriminate].
    injection Hinit as <-. reflexivity.
Qed.

Lemma C10_side_normalised_by_setter_only_witness :
  let self := mkOption (mkParams 100 100 1 (5 / 100) (2 / 10) "call")
                (spec_call 100 100 1 (5 / 100) (2 / 10)) in
  (exists after : EuropeanOption,
      type_setter "PuT" self = (after, Ret tt) /\ _type after = "put"%string) /\
  (exists o : EuropeanOption,
      __init__ 100 100 1 (5 / 100) (2 / 10) "Call" = Ret o /\
      _type o = "Call"%string).
Proof.
  intro self.
  destruct (C10_side_normalised_by_setter_only self self "PuT"
              100 100 1 (5 / 100) (2 / 10) "Call" self)
    as (Hset & _ & Hinit & _).
  split.
  - apply Hset; simpl; try lra. right. reflexivity.
  - apply Hinit; try lra. left. reflexivity.
Defined.

(** C6. Put-call parity: for positive spot, strike, maturity and volatility,
    the price of the call minus the price of the put on the same parameters
    is S0 - K e^(-rT). *)
Theorem C6_put_call_parity (S0 K T r sigma : R) (call_side put_side : string) :
  0 < S0 -> 0 < K -> 0 < T -> 0 < sigma ->
  lower call_side = "call"%string -> lower put_side = "put"%string ->
  exists c p : EuropeanOption,
    __init__ S0 K T r sigma call_side = Ret c /\
    __init__ S0 K T r sigma put_side = Ret p /\
    _price c - _price p = S0 - K * exp (- r * T).
Proof.
  intros HS HK HT Hsig Hc Hp.
  exists (mkOption (mkParams S0 K T r sigma call_side) (spec_call S0 K T r sigma)).
  exists (mkOption (mkParams S0 K T r sigma put_side) (spec_put S0 K T r sigma)).
  unfold __init__.
  rewrite (black_and_scholes_call (mkParams S0 K T r sigma call_side)) by assumption.
  rewrite (black_and_scholes_put (mkParams S0 K T r sigma put_side)) by assumption.
  simpl. repeat split. apply spec_parity.
Qed.

Lemma C6_put_call_parity_witness :
  exists c p : EuropeanOption,
    __init__ 100 100 1 (5 / 100) (2 / 10) "call" = Ret c /\
    __init__ 100 100 1 (5 / 100) (2 / 10) "put" = Ret p /\
    _price c - _price p = 100 - 100 * exp (- (5 / 100) * 1).
Proof.
  apply (C6_put_call_parity 100 100 1 (5 / 100) (2 / 10) "call" "put");
    try lra; reflexivity.
Defined.

(** C7. For positive spot, strike and maturity and a side that lowers to
    'call' or 'put', the price does not decrease when the volatility grows
    over the positive reals, and vega is not negative. *)
Theorem C7_price_monotone_in_volatility
  (S0 K T r : R) (side : string) (sigma1 sigma2 : R) :
  0 < S0 -> 0 < K -> 0 < T ->
  lower side = "call"%string \/ lower side = "put"%string ->
  0 < sigma1 -> sigma1 <= sigma2 ->
  exists p1 p2 v : R,
    black_and_scholes (mkParams S0 K T r sigma1 side) = Ret p1 /\
    black_and_scholes (mkParams S0 K T r sigma2 side) = Ret p2 /\
    p1 <= p2 /\
    vega (mkParams S0 K T r sigma1 side) = Ret v /\
    0 <= v.
Proof.
  intros HS HK HT Hside H1 H12.
  assert (Hv : vega (mkParams S0 K T r sigma1 side)
               = Ret (spec_vega S0 K T r sigma1)).
  { unfold vega. rewrite d1_d2_Ret by assumption. reflexivity. }
  assert (Hv0 : 0 <= spec_vega S0 K T r sigma1).
  { unfold spec_vega. left.
    apply Rmult_lt_0_compat; [| apply norm_facts.pdf_pos].
    apply Rmult_lt_0_compat; [| apply sqrt_lt_R0; exact HT].
    apply Rmult_lt_0_compat; assumption. }
  destruct Hside as [Hc | Hp].
  - exists (spec_call S0 K T r sigma1), (spec_call S0 K T r sigma2),
      (spec_vega S0 K T r sigma1).
    rewrite !black_and_scholes_call by assumption. simpl.
    repeat split; try assumption.
    destruct H12 as [Hlt | ->]; [| lra].
    left. apply spec_call_increasing; assumption.
  - exists (spec_put S0 K T r sigma1), (spec_put S0 K T r sigma2),
      (spec_vega S0 K T r sigma1).
    rewrite !black_and_scholes_put by assumption. simpl.
    repeat split; try assumption.
    destruct H12 as [Hlt | ->]; [| lra].
    left. apply spec_put_increasing; assumption.
Qed.

Lemma C7_price_monotone_in_volatility_witness :
  exists p1 p2 v : R,
    black_and_scholes (mkParams 100 100 1 (5 / 100) (2 / 10) "put") = Ret p1 /\
    black_and_scholes (mkParams 100 100 1 (5 / 100) (3 / 10) "put") = Ret p2 /\
    p1 <= p2 /\
    vega (mkParams 100 100 1 (5 / 100) (2 / 10) "put") = Ret v /\
    0 <= v.
Proof.
  apply (C7_price_monotone_in_volatility 100 100 1 (5 / 100) "put" (2 / 10) (3 / 10));
    try lra.
  right. reflexivity.
Defined.

(** ** What implied_volatility hands back *)

(** The function reads only [x] of what the solver returns: whatever
    [status] and [success] say, the caller gets the first component of the
    final iterate. *)
Lemma implied_volatility_returns_final_iterate
  (least_squares : (R -> result R) -> list R -> result OptimizeResult)
  (market_price S0 K T r : R) (side : string)
  (v : R) (rest : list R) (st : Z) (ok : bool) :
  least_squares (objective market_price S0 K T r side) [1 / 10]
    = Ret (mkResult (v :: rest) st ok) ->
  implied_volatility least_squares market_price S0 K T r side = Ret v.
Proof.
  intro Hrun. unfold implied_volatility. rewrite Hrun. reflexivity.
Qed.

(** * Further properties of the class *)

(** ** The Greeks of a call and of a put on the same parameters *)

Lemma greeks_call (self : params) :
  0 < _S0 self -> 0 < _K self -> _type self = "call"%string ->
  let d1 := spec_d1 (_S0 self) (_K self) (_T self) (_r self) (_sigma self) in
  let d2 := spec_d2 (_S0 self) (_K self) (_T self) (_r self) (_sigma self) in
  delta self = Ret (Some (norm.cdf d1)) /\
  theta self =
    Ret (Some (- _S0 self * _sigma self * norm.pdf d1 / (2 * sqrt (_T self))
               - _r self * _K self * exp (- _r self * _T self) * norm.cdf d2)) /\
  rho self = Ret (Some (_K self * _T self * exp (- _r self * _T self) * norm.cdf d2)).
Proof.
  intros HS HK Hty d1 d2. unfold delta, theta, rho.
  rewrite d1_d2_Ret by assumption. simpl. rewrite Hty. simpl. repeat split.
Qed.

Lemma greeks_put (self : params) :
  0 < _S0 self -> 0 < _K self -> _type self = "put"%string ->
  let d1 := spec_d1 (_S0 self) (_K self) (_T self) (_r self) (_sigma self) in
  let d2 := spec_d2 (_S0 self) (_K self) (_T self) (_r self) (_sigma self) in
  delta self = Ret (Some (norm.cdf d1 - 1)) /\
  theta self =
    Ret (Some (- _S0 self * _sigma self * norm.pdf d1 / (2 * sqrt (_T self))
               + _r self * _K self * exp (- _r self * _T self) * norm.cdf (- d2))) /\
  rho self =
    Ret (Some (- _K self * _T self * exp (- _r self * _T self) * norm.cdf (- d2))).
Proof.
  intros HS HK Hty d1 d2. unfold delta, theta, rho.
  rewrite d1_d2_Ret by assumption. simpl. rewrite Hty. simpl. repeat split.
Qed.

Lemma cdf_opp (x : R) : norm.cdf (- x) = 1 - norm.cdf x.
Proof.
  pose proof (norm_facts.cdf_symmetry x). lra.
Qed.

(** X1. On the same positive spot, strike, maturity and volatility, the
    Greeks of the call and of the put differ by amounts free of the normal
    law: the deltas by 1, the rhos by K T e^(-rT), the thetas by
    - r K e^(-rT). *)
Theorem greeks_parity (S0 K T r sigma : R) :
  0 < S0 -> 0 < K -> 0 < T -> 0 < sigma ->
  let c := mkParams S0 K T r sigma "call" in
  let p := mkParams S0 K T r sigma "put" in
  number (delta c) - number (delta p) = 1 /\
  number (rho c) - number (rho p) = K * T * exp (- r * T) /\
  number (theta c) - number (theta p) = - r * K * exp (- r * T) /\
  (exists dc dp tc tp rc rp : R,
      delta c = Ret (Some dc) /\ delta p = Ret (Some dp) /\
      theta c = Ret (Some tc) /\ theta p = Ret (Some tp) /\
      rho c = Ret (Some rc) /\ rho p = Ret (Some rp)).
Proof.
  intros HS HK HT Hsig c p.
  destruct (greeks_call c HS HK eq_refl) as (Hdc & Htc & Hrc).
  destruct (greeks_put p HS HK eq_refl) as (Hdp & Htp & Hrp).
  rewrite Hdc, Hdp, Htc, Htp, Hrc, Hrp. simpl.
  rewrite !cdf_opp. repeat split; try ring.
  do 6 eexists. repeat split.
Qed.

Lemma greeks_parity_witness :
  let c := mkParams 100 100 1 (5 / 100) (2 / 10) "call" in
  let p := mkParams 100 100 1 (5 / 100) (2 / 10) "put" in
  number (delta c) - number (delta p) = 1 /\
  number (rho c) - number (rho p) = 100 * 1 * exp (- (5 / 100) * 1) /\
  number (theta c) - number (theta p) = - (5 / 100) * 100 * exp (- (5 / 100) * 1) /\
  (exists dc dp tc tp rc rp : R,
      delta c = Ret (Some dc) /\ delta p = Ret (Some dp) /\
      theta c = Ret (Some tc) /\ theta p = Ret (Some tp) /\
      rho c = Ret (Some rc) /\ rho p = Ret (Some rp)).
Proof.
  apply (greeks_parity 100 100 1 (5 / 100) (2 / 10)); lra.
Defined.

(** ** The Greeks as derivatives of the price *)

Section PriceShape.

(** Both prices have the shape A N(d) - B N(d - s), resp.
    B N(-(d - s)) - A N(-d), in whichever attribute is varied. *)
Variables A B d s : R -> R.
Variables (x a' b' d' s' : R).
Hypothesis A_deriv : derivable_pt_lim A x a'.
Hypothesis B_deriv : derivable_pt_lim B x b'.
Hypothesis d_deriv : derivable_pt_lim d x d'.
Hypothesis s_deriv : derivable_pt_lim s x s'.
Hypothesis densities : B x * norm.pdf (d x - s x) = A x * norm.pdf (d x).

Lemma call_shape_derivable :
  derivable_pt_lim (fun y => A y * norm.cdf (d y) - B y * norm.cdf (d y - s y)) x
    (a' * norm.cdf (d x) - b' * norm.cdf (d x - s x) + A x * norm.pdf (d x) * s').
Proof.
  apply (derivable_pt_lim_ext
           (A * comp norm.cdf d - B * comp norm.cdf (d - s))%F).
  { intro y. reflexivity. }
  replace (a' * norm.cdf (d x) - b' * norm.cdf (d x - s x) + A x * norm.pdf (d x) * s')
    with ((a' * comp norm.cdf d x + A x * (norm.pdf (d x) * d'))
          - (b' * comp norm.cdf (d - s)%F x
             + B x * (norm.pdf ((d - s)%F x) * (d' - s')))).
  2:{ unfold comp, minus_fct.
      replace (B x * (norm.pdf (d x - s x) * (d' - s')))
        with (B x * norm.pdf (d x - s x) * (d' - s')) by ring.
      rewrite densities. ring. }
  apply derivable_pt_lim_minus; apply derivable_pt_lim_mult; try assumption;
    apply derivable_pt_lim_comp;
    try apply norm_facts.cdf_derivable_pt_lim; try assumption.
  apply derivable_pt_lim_minus; assumption.
Qed.

Lemma put_shape_derivable :
  derivable_pt_lim
    (fun y => B y * norm.cdf (- (d y - s y)) - A y * norm.cdf (- d y)) x
    (a' * norm.cdf (d x) - b' * norm.cdf (d x - s x) + A x * norm.pdf (d x) * s'
     - a' + b').
Proof.
  apply (derivable_pt_lim_ext
           ((fun y => (A y * norm.cdf (d y) - B y * norm.cdf (d y - s y))%R) - A + B)%F).
  { intro y. unfold plus_fct, minus_fct. rewrite !cdf_opp. ring. }
  apply derivable_pt_lim_plus; [| assumption].
  apply derivable_pt_lim_minus; [| assumption].
  apply call_shape_derivable.
Qed.

End PriceShape.

(** d1 as a function of the spot has derivative 1 / (S sigma sqrt T). *)
Lemma spec_d1_spot_deriv (S K T r sigma : R) :
  0 < S -> 0 < K -> 0 < T -> 0 < sigma ->
  derivable_pt_lim (fun y => spec_d1 y K T r sigma) S (/ (S * (sigma * sqrt T))).
Proof.
  intros HS HK HT Hsig.
  pose proof (sqrt_lt_R0 T HT) as HsT.
  pose (c := (r + sigma ^ 2 / 2) * T).
  apply (derivable_pt_lim_ext
           ((comp ln (id * fct_cte (/ K)) + fct_cte c) * fct_cte (/ (sigma * sqrt T)))%F).
  { intro y. reflexivity. }
  replace (/ (S * (sigma * sqrt T)))
    with ((/ ((id * fct_cte (/ K))%F S) * (1 * fct_cte (/ K) S + id S * 0) + 0)
          * fct_cte (/ (sigma * sqrt T)) S
          + (comp ln (id * fct_cte (/ K)) + fct_cte c)%F S * 0).
  2:{ unfold mult_fct, fct_cte, id. field. repeat split; lra. }
  apply derivable_pt_lim_mult; [| apply derivable_pt_lim_const].
  apply derivable_pt_lim_plus; [| apply derivable_pt_lim_const].
  apply derivable_pt_lim_comp.
  - apply derivable_pt_lim_mult;
      [apply derivable_pt_lim_id | apply derivable_pt_lim_const].
  - apply derivable_pt_lim_ln. unfold mult_fct, fct_cte, id.
    apply Rmult_lt_0_compat; [exact HS | apply Rinv_0_lt_compat; exact HK].
Qed.

Lemma spec_call_spot_deriv (S K T r sigma : R) :
  0 < S -> 0 < K -> 0 < T -> 0 < sigma ->
  derivable_pt_lim (fun y => spec_call y K T r sigma) S
    (norm.cdf (spec_d1 S K T r sigma)).
Proof.
  intros HS HK HT Hsig.
  pose proof (call_shape_derivable id (fct_cte (K * exp (- r * T)))
                (fun y => spec_d1 y K T r sigma) (fct_cte (sigma * sqrt T))
                S 1 0 _ 0
                (derivable_pt_lim_id S) (derivable_pt_lim_const _ S)
                (spec_d1_spot_deriv S K T r sigma HS HK HT Hsig)
                (derivable_pt_lim_const _ S)
                (discounted_strike_density S K T r HS HK HT sigma Hsig)) as H.
  unfold fct_cte, id in H.
  replace (norm.cdf (spec_d1 S K T r sigma))
    with (1 * norm.cdf (spec_d1 S K T r sigma)
          - 0 * norm.cdf (spec_d1 S K T r sigma - sigma * sqrt T)
          + S * norm.pdf (spec_d1 S K T r sigma) * 0) by ring.
  exact H.
Qed.

Lemma spec_put_spot_deriv (S K T r sigma : R) :
  0 < S -> 0 < K -> 0 < T -> 0 < sigma ->
  derivable_pt_lim (fun y => spec_put y K T r sigma) S
    (norm.cdf (spec_d1 S K T r sigma) - 1).
Proof.
  intros HS HK HT Hsig.
  pose proof (put_shape_derivable id (fct_cte (K * exp (- r * T)))
                (fun y => spec_d1 y K T r sigma) (fct_cte (sigma * sqrt T))
                S 1 0 _ 0
                (derivable_pt_lim_id S) (derivable_pt_lim_const _ S)
                (spec_d1_spot_deriv S K T r sigma HS HK HT Hsig)
                (derivable_pt_lim_const _ S)
                (discounted_strike_density S K T r HS HK HT sigma Hsig)) as H.
  unfold fct_cte, id in H.
  replace (norm.cdf (spec_d1 S K T r sigma) - 1)
    with (1 * norm.cdf (spec_d1 S K T r sigma)
          - 0 * norm.cdf (spec_d1 S K T r sigma - sigma * sqrt T)
          + S * norm.pdf (spec_d1 S K T r sigma) * 0 - 1 + 0) by ring.
  exact H.
Qed.

(** The discount factor K e^(-rT) in the rate and in the maturity. *)
Lemma discount_rate_deriv (K T r : R) :
  derivable_pt_lim (fun y => K * exp (- y * T)) r (- T * (K * exp (- r * T))).
Proof.
  apply (derivable_pt_lim_ext
           (mult_real_fct K (comp exp (mult_real_fct (- T) id)))).
  { intro y. unfold mult_real_fct, comp, id. f_equal. f_equal. ring. }
  replace (- T * (K * exp (- r * T)))
    with (K * (exp (mult_real_fct (- T) id r) * (- T * 1))).
  2:{ unfold mult_real_fct, id. replace (- T * r) with (- r * T) by ring. ring. }
  apply derivable_pt_lim_scal. apply derivable_pt_lim_comp.
  - apply derivable_pt_lim_scal. apply derivable_pt_lim_id.
  - apply derivable_pt_lim_exp.
Qed.

Lemma discount_maturity_deriv (K T r : R) :
  derivable_pt_lim (fun y => K * exp (- r * y)) T (- r * (K * exp (- r * T))).
Proof.
  apply (derivable_pt_lim_ext (fun y => K * exp (- y * r))).
  { intro y. f_equal. f_equal. ring. }
  replace (- r * T) with (- T * r) by ring.
  apply discount_rate_deriv.
Qed.

Lemma spec_d1_rate_derivable (S K T r sigma : R) :
  derivable_pt (fun y => spec_d1 S K T y sigma) r.
Proof.
  unfold spec_d1. reg.
Qed.

Lemma spec_d1_maturity_derivable (S K T r sigma : R) :
  0 < T -> 0 < sigma -> derivable_pt (fun y => spec_d1 S K y r sigma) T.
Proof.
  intros HT Hsig. unfold spec_d1. reg.
  apply Rgt_not_eq. apply Rmult_lt_0_compat; [exact Hsig | apply sqrt_lt_R0; exact HT].
Qed.

Lemma vol_sqrt_maturity_deriv (T sigma : R) :
  0 < T ->
  derivable_pt_lim (fun y => sigma * sqrt y) T (sigma * / (2 * sqrt T)).
Proof.
  intro HT. apply (derivable_pt_lim_scal sqrt sigma).
  apply derivable_pt_lim_sqrt. exact HT.
Qed.

Section SpecDerivatives.

Variables S K T r sigma : R.
Hypothesis S_pos : 0 < S.
Hypothesis K_pos : 0 < K.
Hypothesis T_pos : 0 < T.
Hypothesis sigma_pos : 0 < sigma.

Let d1 : R := spec_d1 S K T r sigma.
Let d2 : R := spec_d2 S K T r sigma.

Lemma spec_call_rate_deriv :
  derivable_pt_lim (fun y => spec_call S K T y sigma) r
    (K * T * exp (- r * T) * norm.cdf d2).
Proof.
  destruct (spec_d1_rate_derivable S K T r sigma) as [l Hl].
  pose proof (call_shape_derivable (fct_cte S) (fun y => K * exp (- y * T))
                (fun y => spec_d1 S K T y sigma) (fct_cte (sigma * sqrt T))
                r 0 _ l 0
                (derivable_pt_lim_const _ r) (discount_rate_deriv K T r)
                Hl (derivable_pt_lim_const _ r)
                (discounted_strike_density S K T r S_pos K_pos T_pos sigma sigma_pos))
    as H.
  unfold fct_cte in H.
  replace (K * T * exp (- r * T) * norm.cdf d2)
    with (0 * norm.cdf (spec_d1 S K T r sigma)
          - - T * (K * exp (- r * T)) * norm.cdf (spec_d1 S K T r sigma - sigma * sqrt T)
          + S * norm.pdf (spec_d1 S K T r sigma) * 0)
    by (unfold d2, spec_d2; ring).
  exact H.
Qed.

Lemma spec_put_rate_deriv :
  derivable_pt_lim (fun y => spec_put S K T y sigma) r
    (- K * T * exp (- r * T) * norm.cdf (- d2)).
Proof.
  destruct (spec_d1_rate_derivable S K T r sigma) as [l Hl].
  pose proof (put_shape_derivable (fct_cte S) (fun y => K * exp (- y * T))
                (fun y => spec_d1 S K T y sigma) (fct_cte (sigma * sqrt T))
                r 0 _ l 0
                (derivable_pt_lim_const _ r) (discount_rate_deriv K T r)
                Hl (derivable_pt_lim_const _ r)
                (discounted_strike_density S K T r S_pos K_pos T_pos sigma sigma_pos))
    as H.
  unfold fct_cte in H.
  replace (- K * T * exp (- r * T) * norm.cdf (- d2))
    with (0 * norm.cdf (spec_d1 S K T r sigma)
          - - T * (K * exp (- r * T)) * norm.cdf (spec_d1 S K T r sigma - sigma * sqrt T)
          + S * norm.pdf (spec_d1 S K T r sigma) * 0 - 0
          + - T * (K * exp (- r * T)))
    by (rewrite cdf_opp; unfold d2, spec_d2; ring).
  exact H.
Qed.

Lemma spec_call_maturity_deriv :
  derivable_pt_lim (fun y => spec_call S K y r sigma) T
    (S * sigma * norm.pdf d1 / (2 * sqrt T) + r * K * exp (- r * T) * norm.cdf d2).
Proof.
  destruct (spec_d1_maturity_derivable S K T r sigma T_pos sigma_pos) as [l Hl].
  pose proof (sqrt_lt_R0 T T_pos) as HsT.
  pose proof (call_shape_derivable (fct_cte S) (fun y => K * exp (- r * y))
                (fun y => spec_d1 S K y r sigma) (fun y => sigma * sqrt y)
                T 0 _ l _
                (derivable_pt_lim_const _ T) (discount_maturity_deriv K T r)
                Hl (vol_sqrt_maturity_deriv T sigma T_pos)
                (discounted_strike_density S K T r S_pos K_pos T_pos sigma sigma_pos))
    as H.
  unfold fct_cte in H.
  replace (S * sigma * norm.pdf d1 / (2 * sqrt T) + r * K * exp (- r * T) * norm.cdf d2)
    with (0 * norm.cdf (spec_d1 S K T r sigma)
          - - r * (K * exp (- r * T)) * norm.cdf (spec_d1 S K T r sigma - sigma * sqrt T)
          + S * norm.pdf (spec_d1 S K T r sigma) * (sigma * / (2 * sqrt T)))
    by (unfold d1, d2, spec_d2; field; lra).
  exact H.
Qed.

Lemma spec_put_maturity_deriv :
  derivable_pt_lim (fun y => spec_put S K y r sigma) T
    (S * sigma * norm.pdf d1 / (2 * sqrt T)
     - r * K * exp (- r * T) * norm.cdf (- d2)).
Proof.
  destruct (spec_d1_maturity_derivable S K T r sigma T_pos sigma_pos) as [l Hl].
  pose proof (sqrt_lt_R0 T T_pos) as HsT.
  pose proof (put_shape_derivable (fct_cte S) (fun y => K * exp (- r * y))
                (fun y => spec_d1 S K y r sigma) (fun y => sigma * sqrt y)
                T 0 _ l _
                (derivable_pt_lim_const _ T) (discount_maturity_deriv K T r)
                Hl (vol_sqrt_maturity_deriv T sigma T_pos)
                (discounted_strike_density S K T r S_pos K_pos T_pos sigma sigma_pos))
    as H.
  unfold fct_cte in H.
  replace (S * sigma * norm.pdf d1 / (2 * sqrt T)
           - r * K * exp (- r * T) * norm.cdf (- d2))
    with (0 * norm.cdf (spec_d1 S K T r sigma)
          - - r * (K * exp (- r * T)) * norm.cdf (spec_d1 S K T r sigma - sigma * sqrt T)
          + S * norm.pdf (spec_d1 S K T r sigma) * (sigma * / (2 * sqrt T)) - 0
          + - r * (K * exp (- r * T)))
    by (rewrite cdf_opp; unfold d1, d2, spec_d2; field; lra).
  exact H.
Qed.

Lemma spec_put_derivable_pt_lim :
  derivable_pt_lim (spec_put S K T r) sigma (S * sqrt T * norm.pdf d1).
Proof.
  apply (derivable_pt_lim_ext
           (spec_call S K T r - fct_cte (S - K * exp (- r * T)))%F).
  { intro y. unfold minus_fct, fct_cte.
    pose proof (spec_parity S K T r y). lra. }
  replace (S * sqrt T * norm.pdf d1) with (S * sqrt T * norm.pdf d1 - 0) by ring.
  apply derivable_pt_lim_minus; [| apply derivable_pt_lim_const].
  apply spec_call_derivable_pt_lim; assumption.
Qed.

(** The delta formula in the spot has derivative n(d1) / (S sigma sqrt T). *)
Lemma cdf_d1_spot_deriv :
  derivable_pt_lim (fun y => norm.cdf (spec_d1 y K T r sigma)) S
    (norm.pdf d1 / (S * sigma * sqrt T)).
Proof.
  pose proof (sqrt_lt_R0 T T_pos) as HsT.
  replace (norm.pdf d1 / (S * sigma * sqrt T))
    with (norm.pdf d1 * / (S * (sigma * sqrt T)))
    by (field; repeat split; lra).
  apply (derivable_pt_lim_comp (fun y => spec_d1 y K T r sigma) norm.cdf).
  - apply spec_d1_spot_deriv; assumption.
  - apply norm_facts.cdf_derivable_pt_lim.
Qed.

End SpecDerivatives.

Lemma value_price_call (S K T r sigma : R) (side : string) :
  0 < S -> 0 < K -> lower side = "call"%string ->
  value (black_and_scholes (mkParams S K T r sigma side)) = spec_call S K T r sigma.
Proof.
  intros HS HK Hty. now rewrite black_and_scholes_call.
Qed.

Lemma value_price_put (S K T r sigma : R) (side : string) :
  0 < S -> 0 < K -> lower side = "put"%string ->
  value (black_and_scholes (mkParams S K T r sigma side)) = spec_put S K T r sigma.
Proof.
  intros HS HK Hty. now rewrite black_and_scholes_put.
Qed.

(** X2. On a contract with positive spot, strike, maturity and volatility and
    the side 'call' or 'put', [delta] is the derivative of the price computed
    by [black_and_scholes] with respect to the spot. *)
Theorem delta_is_spot_derivative (self : params) :
  0 < _S0 self -> 0 < _K self -> 0 < _T self -> 0 < _sigma self ->
  _type self = "call"%string \/ _type self = "put"%string ->
  exists dl : R,
    delta self = Ret (Some dl) /\
    derivable_pt_lim (fun y => value (black_and_scholes (with_S0 y self)))
      (_S0 self) dl.
Proof.
  destruct self as [S K T r sigma ty]. simpl. intros HS HK HT Hsig [-> | ->].
  - exists (norm.cdf (spec_d1 S K T r sigma)). split.
    + apply (greeks_call (mkParams S K T r sigma "call")); simpl; auto.
    + apply (derivable_pt_lim_locally_ext (fun y => spec_call y K T r sigma) _ S
               (S / 2) (S + 1)); [lra | |].
      * intros z Hz. unfold with_S0. simpl.
        rewrite value_price_call; [reflexivity | lra | assumption | reflexivity].
      * apply spec_call_spot_deriv; assumption.
  - exists (norm.cdf (spec_d1 S K T r sigma) - 1). split.
    + apply (greeks_put (mkParams S K T r sigma "put")); simpl; auto.
    + apply (derivable_pt_lim_locally_ext (fun y => spec_put y K T r sigma) _ S
               (S / 2) (S + 1)); [lra | |].
      * intros z Hz. unfold with_S0. simpl.
        rewrite value_price_put; [reflexivity | lra | assumption | reflexivity].
      * apply spec_put_spot_deriv; assumption.
Qed.

Lemma delta_is_spot_derivative_witness :
  let self := mkParams 100 100 1 (5 / 100) (2 / 10) "put" in
  exists dl : R,
    delta self = Ret (Some dl) /\
    derivable_pt_lim (fun y => value (black_and_scholes (with_S0 y self))) 100 dl.
Proof.
  apply (delta_is_spot_derivative (mkParams 100 100 1 (5 / 100) (2 / 10) "put"));
    simpl; try lra.
  right. reflexivity.
Defined.

(** X3. On such a contract [rho] is the derivative of the price with respect
    to the rate. *)
Theorem rho_is_rate_derivative (self : params) :
  0 < _S0 self -> 0 < _K self -> 0 < _T self -> 0 < _sigma self ->
  _type self = "call"%string \/ _type self = "put"%string ->
  exists rh : R,
    rho self = Ret (Some rh) /\
    derivable_pt_lim (fun y => value (black_and_scholes (with_r y self)))
      (_r self) rh.
Proof.
  destruct self as [S K T r sigma ty]. simpl. intros HS HK HT Hsig [-> | ->].
  - exists (K * T * exp (- r * T) * norm.cdf (spec_d2 S K T r sigma)). split.
    + apply (greeks_call (mkParams S K T r sigma "call")); simpl; auto.
    + apply (derivable_pt_lim_ext (fun y => spec_call S K T y sigma)).
      * intro z. unfold with_r. simpl.
        rewrite value_price_call; [reflexivity | assumption | assumption | reflexivity].
      * apply spec_call_rate_deriv; assumption.
  - exists (- K * T * exp (- r * T) * norm.cdf (- spec_d2 S K T r sigma)). split.
    + apply (greeks_put (mkParams S K T r sigma "put")); simpl; auto.
    + apply (derivable_pt_lim_ext (fun y => spec_put S K T y sigma)).
      * intro z. unfold with_r. simpl.
        rewrite value_price_put; [reflexivity | assumption | assumption | reflexivity].
      * apply spec_put_rate_deriv; assumption.
Qed.

Lemma rho_is_rate_derivative_witness :
  let self := mkParams 100 100 1 (5 / 100) (2 / 10) "call" in
  exists rh : R,
    rho self = Ret (Some rh) /\
    derivable_pt_lim (fun y => value (black_and_scholes (with_r y self))) (5 / 100) rh.
Proof.
  apply (rho_is_rate_derivative (mkParams 100 100 1 (5 / 100) (2 / 10) "call"));
    simpl; try lra.
  left. reflexivity.
Defined.

(** X4. On such a contract [theta] is minus the derivative of the price with
    respect to the maturity. *)
Theorem theta_is_minus_maturity_derivative (self : params) :
  0 < _S0 self -> 0 < _K self -> 0 < _T self -> 0 < _sigma self ->
  _type self = "call"%string \/ _type self = "put"%string ->
  exists th : R,
    theta self = Ret (Some th) /\
    derivable_pt_lim (fun y => value (black_and_scholes (with_T y self)))
      (_T self) (- th).
Proof.
  destruct self as [S K T r sigma ty]. simpl. intros HS HK HT Hsig [-> | ->].
  - eexists. split.
    + apply (greeks_call (mkParams S K T r sigma "call")); simpl; auto.
    + simpl. apply (derivable_pt_lim_ext (fun y => spec_call S K y r sigma)).
      * intro z. unfold with_T. simpl.
        rewrite value_price_call; [reflexivity | assumption | assumption | reflexivity].
      * match goal with |- derivable_pt_lim _ _ ?l =>
          replace l with (S * sigma * norm.pdf (spec_d1 S K T r sigma) / (2 * sqrt T)
                          + r * K * exp (- r * T) * norm.cdf (spec_d2 S K T r sigma))
            by (unfold Rdiv; ring)
        end.
        apply spec_call_maturity_deriv; assumption.
  - eexists. split.
    + apply (greeks_put (mkParams S K T r sigma "put")); simpl; auto.
    + simpl. apply (derivable_pt_lim_ext (fun y => spec_put S K y r sigma)).
      * intro z. unfold with_T. simpl.
        rewrite value_price_put; [reflexivity | assumption | assumption | reflexivity].
      * match goal with |- derivable_pt_lim _ _ ?l =>
          replace l with (S * sigma * norm.pdf (spec_d1 S K T r sigma) / (2 * sqrt T)
                          - r * K * exp (- r * T) * norm.cdf (- spec_d2 S K T r sigma))
            by (unfold Rdiv; ring)
        end.
        apply spec_put_maturity_deriv; assumption.
Qed.

Lemma theta_is_minus_maturity_derivative_witness :
  let self := mkParams 100 100 1 (5 / 100) (2 / 10) "call" in
  exists th : R,
    theta self = Ret (Some th) /\
    derivable_pt_lim (fun y => value (black_and_scholes (with_T y self))) 1 (- th).
Proof.
  apply (theta_is_minus_maturity_derivative
           (mkParams 100 100 1 (5 / 100) (2 / 10) "call"));
    simpl; try lra.
  left. reflexivity.
Defined.

(** X5. On a contract with positive spot, strike, maturity and volatility and
    a side accepted by the pricing, [vega] is the volatility times the
    derivative of the price with respect to the volatility: it equals that
    derivative only at sigma = 1. *)
Theorem vega_is_sigma_times_volatility_derivative (self : params) :
  0 < _S0 self -> 0 < _K self -> 0 < _T self -> 0 < _sigma self ->
  lower (_type self) = "call"%string \/ lower (_type self) = "put"%string ->
  exists v dv : R,
    vega self = Ret v /\
    derivable_pt_lim (fun y => value (black_and_scholes (with_sigma y self)))
      (_sigma self) dv /\
    v = _sigma self * dv /\ 0 < dv.
Proof.
  destruct self as [S K T r sigma ty]. simpl. intros HS HK HT Hsig Hty.
  exists (S * sigma * sqrt T * norm.pdf (spec_d1 S K T r sigma)),
    (S * sqrt T * norm.pdf (spec_d1 S K T r sigma)).
  split; [| split; [| split]].
  - unfold vega. rewrite d1_d2_Ret by assumption. reflexivity.
  - destruct Hty as [Hc | Hp].
    + apply (derivable_pt_lim_ext (spec_call S K T r)).
      * intro z. unfold with_sigma. simpl.
        rewrite value_price_call; [reflexivity | assumption | assumption | exact Hc].
      * apply spec_call_derivable_pt_lim; assumption.
    + apply (derivable_pt_lim_ext (spec_put S K T r)).
      * intro z. unfold with_sigma. simpl.
        rewrite value_price_put; [reflexivity | assumption | assumption | exact Hp].
      * apply spec_put_derivable_pt_lim; assumption.
  - ring.
  - apply Rmult_lt_0_compat; [| apply norm_facts.pdf_pos].
    apply Rmult_lt_0_compat; [exact HS | apply sqrt_lt_R0; exact HT].
Qed.

Lemma vega_is_sigma_times_volatility_derivative_witness :
  let self := mkParams 100 100 1 (5 / 100) (2 / 10) "Put" in
  exists v dv : R,
    vega self = Ret v /\
    derivable_pt_lim (fun y => value (black_and_scholes (with_sigma y self)))
      (2 / 10) dv /\
    v = 2 / 10 * dv /\ 0 < dv.
Proof.
  apply (vega_is_sigma_times_volatility_derivative
           (mkParams 100 100 1 (5 / 100) (2 / 10) "Put"));
    simpl; try lra.
  right. reflexivity.
Defined.

(** X6. On a contract with positive spot, strike, maturity and volatility and
    the side 'call' or 'put', the volatility times [gamma] is the derivative
    of [delta] with respect to the spot, and [gamma] is positive. *)
Theorem gamma_is_delta_derivative_over_sigma (self : params) :
  0 < _S0 self -> 0 < _K self -> 0 < _T self -> 0 < _sigma self ->
  _type self = "call"%string \/ _type self = "put"%string ->
  exists g : R,
    gamma self = Ret g /\ 0 < g /\
    derivable_pt_lim (fun y => number (delta (with_S0 y self)))
      (_S0 self) (_sigma self * g).
Proof.
  destruct self as [S K T r sigma ty]. simpl. intros HS HK HT Hsig Hty.
  pose proof (sqrt_lt_R0 T HT) as HsT.
  exists (norm.pdf (spec_d1 S K T r sigma) / (S * sigma * sigma * sqrt T)).
  split; [| split].
  - unfold gamma. rewrite d1_d2_Ret by assumption. reflexivity.
  - apply Rdiv_lt_0_compat; [apply norm_facts.pdf_pos |].
    repeat apply Rmult_lt_0_compat; assumption.
  - replace (sigma * (norm.pdf (spec_d1 S K T r sigma) / (S * sigma * sigma * sqrt T)))
      with (norm.pdf (spec_d1 S K T r sigma) / (S * sigma * sqrt T))
      by (field; repeat split; lra).
    destruct Hty as [-> | ->].
    + apply (derivable_pt_lim_locally_ext
               (fun y => norm.cdf (spec_d1 y K T r sigma)) _ S (S / 2) (S + 1));
        [lra | |].
      * intros z Hz.
        destruct (greeks_call (mkParams z K T r sigma "call")) as (Hd & _);
          simpl; try lra; try reflexivity.
        unfold with_S0. simpl. rewrite Hd. reflexivity.
      * apply cdf_d1_spot_deriv; assumption.
    + apply (derivable_pt_lim_locally_ext
               (fun y => norm.cdf (spec_d1 y K T r sigma) - 1) _ S (S / 2) (S + 1));
        [lra | |].
      * intros z Hz.
        destruct (greeks_put (mkParams z K T r sigma "put")) as (Hd & _);
          simpl; try lra; try reflexivity.
        unfold with_S0. simpl. rewrite Hd. reflexivity.
      * replace (norm.pdf (spec_d1 S K T r sigma) / (S * sigma * sqrt T))
          with (norm.pdf (spec_d1 S K T r sigma) / (S * sigma * sqrt T) - 0) by ring.
        apply (derivable_pt_lim_minus
                 (fun y => norm.cdf (spec_d1 y K T r sigma)) (fct_cte 1)).
        -- apply cdf_d1_spot_deriv; assumption.
        -- apply derivable_pt_lim_const.
Qed.

Lemma gamma_is_delta_derivative_over_sigma_witness :
  let self := mkParams 100 100 1 (5 / 100) (2 / 10) "call" in
  exists g : R,
    gamma self = Ret g /\ 0 < g /\
    derivable_pt_lim (fun y => number (delta (with_S0 y self))) 100 (2 / 10 * g).
Proof.
  apply (gamma_is_delta_derivative_over_sigma
           (mkParams 100 100 1 (5 / 100) (2 / 10) "call"));
    simpl; try lra.
  left. reflexivity.
Defined.

(** ** Which exception, and when *)

Lemma d1_d2_Ret_ratio (self : params) :
  _K self <> 0 -> 0 < _S0 self / _K self ->
  _d1_d2 self =
    Ret (spec_d1 (_S0 self) (_K self) (_T self) (_r self) (_sigma self),
         spec_d2 (_S0 self) (_K self) (_T self) (_r self) (_sigma self)).
Proof.
  intros HK Hq. unfold _d1_d2.
  rewrite truediv_Ret by assumption. simpl.
  rewrite log_Ret by assumption. reflexivity.
Qed.

(** X7. Construction checks the numbers before the side.  A zero strike
    raises ZeroDivisionError and a spot-to-strike ratio that is not positive
    raises the ValueError of [math.log], whatever the side; with a positive
    ratio an unknown side raises the ValueError of the class, and a known
    side is priced, also when spot and strike are both negative. *)
Theorem construction_outcomes (S0 K T r sigma : R) (side : string) :
  (K = 0 -> __init__ S0 K T r sigma side = Raise ZeroDivisionError) /\
  (K <> 0 -> S0 / K <= 0 ->
   __init__ S0 K T r sigma side = Raise (ValueError "math domain error")) /\
  (K <> 0 -> 0 < S0 / K ->
   str_in (lower side) ["call"; "put"]%string = false ->
   __init__ S0 K T r sigma side =
     Raise (ValueError "Option type can only be a Call or a Put.")) /\
  (K <> 0 -> 0 < S0 / K ->
   str_in (lower side) ["call"; "put"]%string = true ->
   exists p : R,
     __init__ S0 K T r sigma side = Ret (mkOption (mkParams S0 K T r sigma side) p)).
Proof.
  unfold __init__, black_and_scholes. repeat split.
  - intros ->. unfold _d1_d2. simpl. rewrite truediv_zero. reflexivity.
  - intros HK Hq. unfold _d1_d2. simpl.
    rewrite truediv_Ret by assumption. simpl.
    rewrite log_domain by assumption. reflexivity.
  - intros HK Hq Hin.
    rewrite (d1_d2_Ret_ratio (mkParams S0 K T r sigma side)) by assumption. simpl.
    unfold str_in in Hin. simpl in Hin.
    rewrite orb_false_r in Hin. apply orb_false_iff in Hin as [H1 H2].
    rewrite H1, H2. reflexivity.
  - intros HK Hq Hin.
    rewrite (d1_d2_Ret_ratio (mkParams S0 K T r sigma side)) by assumption. simpl.
    apply str_in_call_put in Hin as [-> | ->]; simpl; eexists; reflexivity.
Qed.

Lemma construction_outcomes_witness :
  __init__ 100 0 1 (5 / 100) (2 / 10) "invalid" = Raise ZeroDivisionError /\
  __init__ (- 100) 100 1 (5 / 100) (2 / 10) "invalid"
    = Raise (ValueError "math domain error") /\
  __init__ 100 100 1 (5 / 100) (2 / 10) "invalid"
    = Raise (ValueError "Option type can only be a Call or a Put.") /\
  (exists p : R,
      __init__ (- 100) (- 100) 1 (5 / 100) (2 / 10) "CALL"
      = Ret (mkOption (mkParams (- 100) (- 100) 1 (5 / 100) (2 / 10) "CALL") p)).
Proof.
  split; [| split; [| split]].
  - apply (construction_outcomes 100 0 1 (5 / 100) (2 / 10) "invalid"). reflexivity.
  - apply (construction_outcomes (- 100) 100 1 (5 / 100) (2 / 10) "invalid"); lra.
  - apply (construction_outcomes 100 100 1 (5 / 100) (2 / 10) "invalid");
      try lra; reflexivity.
  - apply (construction_outcomes (- 100) (- 100) 1 (5 / 100) (2 / 10) "CALL");
      try lra; reflexivity.
Defined.

(** X8. Scaling spot and strike by the same non-zero factor scales the price
    by that factor and leaves every failure as it was: the pricing sees the
    two only through their ratio. *)
Theorem price_homogeneous (self : params) (k : R) :
  k <> 0 ->
  let scaled := with_S0 (k * _S0 self) (with_K (k * _K self) self) in
  match black_and_scholes self with
  | Ret p => black_and_scholes scaled = Ret (k * p)
  | Raise e => black_and_scholes scaled = Raise e
  end.
Proof.
  destruct self as [S K T r sigma ty]. intros Hk scaled.
  unfold scaled, with_S0, with_K, black_and_scholes, _d1_d2. simpl.
  destruct (Req_dec_T K 0) as [-> | HK].
  - rewrite Rmult_0_r, !truediv_zero. reflexivity.
  - assert (HkK : k * K <> 0) by (apply Rmult_integral_contrapositive_currified; assumption).
    rewrite !truediv_Ret by assumption. simpl.
    replace (k * S / (k * K)) with (S / K) by (field; split; assumption).
    destruct (log (S / K)) as [l | e]; simpl; [| reflexivity].
    destruct (lower ty =? "call")%string; [f_equal; ring |].
    destruct (lower ty =? "put")%string; [f_equal; ring | reflexivity].
Qed.

Lemma price_homogeneous_witness :
  let self := mkParams 100 100 1 (5 / 100) (2 / 10) "call" in
  match black_and_scholes self with
  | Ret p => black_and_scholes (with_S0 (- 1 * 100) (with_K (- 1 * 100) self))
             = Ret (- 1 * p)
  | Raise e => black_and_scholes (with_S0 (- 1 * 100) (with_K (- 1 * 100) self))
               = Raise e
  end.
Proof.
  apply (price_homogeneous (mkParams 100 100 1 (5 / 100) (2 / 10) "call") (- 1)).
  lra.
Defined.

(** ** Assignments that fail, and runs of assignments *)

(** The side test of the type setter; the other setters test nothing. *)
Lemma setattr_Raise (a : assignment) (self : EuropeanOption) (e : exn) :
  match a with
  | Set_type v => str_in (lower v) ["call"; "put"]%string = true
  | _ => True
  end ->
  black_and_scholes (assigned a self) = Raise e ->
  setattr a self = (mkOption (assigned a self) (_price self), Raise e).
Proof.
  intros Hok He.
  destruct a as [v | v | v | v | v | v];
    try (simpl in He |- *;
         unfold S0_setter, K_setter, T_setter, r_setter, sigma_setter,
           mbind, assign, call, assign_price; simpl; rewrite He; reflexivity).
  change (setattr (Set_type v) self) with (type_setter v self).
  change (black_and_scholes (with_type (lower v) self) = Raise e) in He.
  unfold type_setter. rewrite Hok. simpl.
  unfold mbind, assign, call, assign_price; simpl. rewrite He. reflexivity.
Qed.

(** X9. An assignment whose value makes the pricing raise is not undone: the
    exception of the pricing reaches the caller, the attribute keeps the new
    value and the price keeps the old one, so the instance no longer
    satisfies price = black_and_scholes(attributes). *)
Theorem failed_assignment_leaves_stale_price
  (a : assignment) (self : EuropeanOption) (e : exn) :
  match a with
  | Set_type v => str_in (lower v) ["call"; "put"]%string = true
  | _ => True
  end ->
  black_and_scholes (assigned a self) = Raise e ->
  let after := fst (setattr a self) in
  snd (setattr a self) = Raise e /\
  fields after = assigned a self /\
  _price after = _price self /\
  black_and_scholes after <> Ret (_price after).
Proof.
  intros Hok He after. unfold after.
  rewrite (setattr_Raise a self e Hok He). simpl.
  repeat split. rewrite He. discriminate.
Qed.

Lemma failed_assignment_leaves_stale_price_witness :
  let self := mkOption (mkParams 100 100 1 (5 / 100) (2 / 10) "call")
                (spec_call 100 100 1 (5 / 100) (2 / 10)) in
  let after := fst (setattr (Set_K 0) self) in
  snd (setattr (Set_K 0) self) = Raise ZeroDivisionError /\
  fields after = mkParams 100 0 1 (5 / 100) (2 / 10) "call" /\
  _price after = spec_call 100 100 1 (5 / 100) (2 / 10) /\
  black_and_scholes after <> Ret (_price after).
Proof.
  apply (failed_assignment_leaves_stale_price (Set_K 0)
           (mkOption (mkParams 100 100 1 (5 / 100) (2 / 10) "call")
              (spec_call 100 100 1 (5 / 100) (2 / 10)))
           ZeroDivisionError).
  - exact I.
  - unfold black_and_scholes, _d1_d2. simpl. rewrite truediv_zero. reflexivity.
Defined.

(** What a setter that returned has done. *)
Lemma setattr_Ret_inv (a : assignment) (self after : EuropeanOption) :
  setattr a self = (after, Ret tt) ->
  fields after = assigned a self /\
  black_and_scholes after = Ret (_price after).
Proof.
  intro H.
  destruct (black_and_scholes (assigned a self)) as [p | e] eqn:Hbs.
  - rewrite (setattr_Ret a self p Hbs) in H. injection H as <-. simpl. auto.
  - destruct a as [v | v | v | v | v | v]; simpl in *;
      try (unfold S0_setter, K_setter, T_setter, r_setter, sigma_setter,
             mbind, assign, call, assign_price in H; simpl in H;
           rewrite Hbs in H; discriminate).
    unfold type_setter in H.
    destruct (str_in (lower v) ["call"; "put"]%string); simpl in H.
    + unfold mbind, assign, call, assign_price in H; simpl in H.
      rewrite Hbs in H. discriminate.
    + unfold mraise in H. discriminate.
Qed.

(** X10. Starting from a constructed instance, a run of assignments that all
    return leaves the instance that the constructor builds from the final
    attribute values: the cached price never depends on the path. *)
Theorem run_of_assignments_is_construction
  (S0 K T r sigma : R) (side : string) (o after : EuropeanOption)
  (l : list assignment) :
  __init__ S0 K T r sigma side = Ret o ->
  run l o = (after, Ret tt) ->
  black_and_scholes after = Ret (_price after) /\
  __init__ (_S0 after) (_K after) (_T after) (_r after) (_sigma after) (_type after)
    = Ret after.
Proof.
  intros Hinit Hrun.
  assert (Ho : black_and_scholes o = Ret (_price o)).
  { unfold __init__ in Hinit.
    destruct (black_and_scholes (mkParams S0 K T r sigma side)) as [p | e] eqn:E;
      simpl in Hinit; [| discriminate].
    injection Hinit as <-. simpl. exact E. }
  clear Hinit.
  assert (Hfresh : black_and_scholes after = Ret (_price after)).
  { revert o Ho Hrun. induction l as [| a rest IH]; intros o Ho Hrun.
    - injection Hrun as <-. exact Ho.
    - simpl in Hrun. unfold mbind in Hrun.
      destruct (setattr a o) as [o1 [[] | e]] eqn:Hstep; [| discriminate].
      apply (IH o1); [| exact Hrun].
      apply (setattr_Ret_inv a o o1 Hstep). }
  split; [exact Hfresh |].
  unfold __init__. destruct after as [[S1 K1 T1 r1 s1 ty1] p1]. simpl in *.
  rewrite Hfresh. reflexivity.
Qed.

Lemma run_of_assignments_is_construction_witness :
  let o := mkOption (mkParams 100 100 1 (5 / 100) (2 / 10) "Call")
             (spec_call 100 100 1 (5 / 100) (2 / 10)) in
  let after := mkOption (mkParams 110 100 1 (5 / 100) (2 / 10) "put")
                 (spec_put 110 100 1 (5 / 100) (2 / 10)) in
  black_and_scholes after = Ret (_price after) /\
  __init__ 110 100 1 (5 / 100) (2 / 10) "put" = Ret after.
Proof.
  intros o after.
  apply (run_of_assignments_is_construction 100 100 1 (5 / 100) (2 / 10) "Call"
           o after [Set_S0 110; Set_type "PUT"]).
  - unfold __init__. rewrite black_and_scholes_call; simpl; try lra; reflexivity.
  - cbn [run]. unfold mbind.
    rewrite (setattr_Ret (Set_S0 110) o (spec_call 110 100 1 (5 / 100) (2 / 10)))
      by (apply black_and_scholes_call; simpl; try lra; reflexivity).
    rewrite (setattr_Ret (Set_type "PUT") _ (spec_put 110 100 1 (5 / 100) (2 / 10)))
      by (apply black_and_scholes_put; simpl; try lra; reflexivity).
    reflexivity.
Defined.

(** ** When the Greeks are numbers *)

Lemma black_and_scholes_Ret_d1_d2 (self : params) (p : R) :
  black_and_scholes self = Ret p -> exists d1 d2 : R, _d1_d2 self = Ret (d1, d2).
Proof.
  unfold black_and_scholes.
  destruct (_d1_d2 self) as [[d1 d2] | e]; simpl; [| discriminate].
  intros _. exists d1, d2. reflexivity.
Qed.

Lemma greeks_Some (self : params) (d1 d2 : R) :
  _d1_d2 self = Ret (d1, d2) ->
  _type self = "call"%string \/ _type self = "put"%string ->
  exists dl th rh : R,
    delta self = Ret (Some dl) /\ theta self = Ret (Some th) /\
    rho self = Ret (Some rh).
Proof.
  intros Hd Hty. unfold delta, theta, rho. rewrite Hd. simpl.
  destruct Hty as [-> | ->]; simpl; do 3 eexists; repeat split.
Qed.

Lemma greeks_None (self : params) (d1 d2 : R) :
  _d1_d2 self = Ret (d1, d2) ->
  _type self <> "call"%string -> _type self <> "put"%string ->
  delta self = Ret None /\ theta self = Ret None /\ rho self = Ret None.
Proof.
  intros Hd Hc Hp. unfold delta, theta, rho. rewrite Hd. simpl.
  apply String.eqb_neq in Hc. apply String.eqb_neq in Hp.
  rewrite Hc, Hp. repeat split.
Qed.

Lemma lower_call_put_fixed (s : string) :
  s = "call"%string \/ s = "put"%string -> lower s = s.
Proof.
  intros [-> | ->]; reflexivity.
Qed.

(** X11. After any type assignment that returns, delta, theta and rho are
    numbers: the setter stores the lowered side, which is what the three
    methods compare with.  This holds whatever side the instance had before,
    so [o.type = o.type] makes the Greeks of a 'Call' contract defined. *)
Theorem greeks_defined_after_type_assignment
  (self after : EuropeanOption) (value : string) :
  type_setter value self = (after, Ret tt) ->
  exists dl th rh : R,
    delta after = Ret (Some dl) /\ theta after = Ret (Some th) /\
    rho after = Ret (Some rh).
Proof.
  intro Hset.
  destruct (setattr_Ret_inv (Set_type value) self after Hset) as [Hf Hbs].
  destruct (black_and_scholes_Ret_d1_d2 _ _ Hbs) as (d1 & d2 & Hd).
  apply (greeks_Some after d1 d2 Hd).
  pose proof (black_and_scholes_Ret_type _ _ Hbs) as Hin.
  rewrite Hf in Hin |- *. simpl in Hin |- *.
  change (str_in (lower (lower value)) ["call"; "put"]%string = true) in Hin.
  rewrite lower_idem in Hin. now apply str_in_call_put.
Qed.

Lemma greeks_defined_after_type_assignment_witness :
  let after := mkOption (mkParams 100 100 1 (5 / 100) (2 / 10) "call")
                 (spec_call 100 100 1 (5 / 100) (2 / 10)) in
  exists dl th rh : R,
    delta after = Ret (Some dl) /\ theta after = Ret (Some th) /\
    rho after = Ret (Some rh).
Proof.
  intro o2.
  apply (greeks_defined_after_type_assignment
           (mkOption (mkParams 100 100 1 (5 / 100) (2 / 10) "Call")
              (spec_call 100 100 1 (5 / 100) (2 / 10)))
           o2 "Call").
  apply (setattr_Ret (Set_type "Call")).
  apply black_and_scholes_call; simpl; try lra; reflexivity.
Defined.

(** X12. On a constructed instance delta, theta and rho return None exactly
    when the side given to the constructor was not already in lower case;
    otherwise all three return numbers. *)
Theorem greeks_None_iff_side_not_lowercase
  (S0 K T r sigma : R) (side : string) (o : EuropeanOption) :
  __init__ S0 K T r sigma side = Ret o ->
  (side <> lower side ->
   delta o = Ret None /\ theta o = Ret None /\ rho o = Ret None) /\
  (side = lower side ->
   exists dl th rh : R,
     delta o = Ret (Some dl) /\ theta o = Ret (Some th) /\ rho o = Ret (Some rh)).
Proof.
  intro Hinit. unfold __init__ in Hinit.
  destruct (black_and_scholes (mkParams S0 K T r sigma side)) as [p | e] eqn:Hbs;
    simpl in Hinit; [| discriminate].
  injection Hinit as <-.
  destruct (black_and_scholes_Ret_d1_d2 _ _ Hbs) as (d1 & d2 & Hd).
  pose proof (black_and_scholes_Ret_type _ _ Hbs) as Hin.
  apply str_in_call_put in Hin. simpl in Hin.
  split.
  - intro Hne. apply (greeks_None (mkParams S0 K T r sigma side) d1 d2 Hd); simpl;
      intros ->; apply Hne; reflexivity.
  - intro Heq. apply (greeks_Some (mkParams S0 K T r sigma side) d1 d2 Hd). simpl.
    rewrite Heq. exact Hin.
Qed.

Lemma greeks_None_iff_side_not_lowercase_witness :
  let o := mkOption (mkParams 100 100 1 (5 / 100) (2 / 10) "pUT")
             (spec_put 100 100 1 (5 / 100) (2 / 10)) in
  delta o = Ret None /\ theta o = Ret None /\ rho o = Ret None.
Proof.
  intro o.
  apply (greeks_None_iff_side_not_lowercase 100 100 1 (5 / 100) (2 / 10) "pUT" o).
  - unfold __init__. rewrite black_and_scholes_put; simpl; try lra; reflexivity.
  - simpl. discriminate.
Defined.

(** ** The pricing outside the intended domain *)

Lemma spec_d1_opp_sigma (S0 K T r sigma : R) :
  0 < T -> sigma <> 0 ->
  spec_d1 S0 K T r (- sigma) = - spec_d1 S0 K T r sigma.
Proof.
  intros HT Hsig. pose proof (sqrt_lt_R0 T HT). unfold spec_d1. field.
  split; lra.
Qed.

(** X13. No method tests the sign of the volatility.  With a negative
    volatility the call is priced at minus the put of the opposite
    volatility, and the put at minus the call. *)
Theorem negative_volatility_mirrors_side (S0 K T r sigma : R) :
  0 < S0 -> 0 < K -> 0 < T -> 0 < sigma ->
  exists c p : R,
    black_and_scholes (mkParams S0 K T r sigma "call") = Ret c /\
    black_and_scholes (mkParams S0 K T r sigma "put") = Ret p /\
    black_and_scholes (mkParams S0 K T r (- sigma) "call") = Ret (- p) /\
    black_and_scholes (mkParams S0 K T r (- sigma) "put") = Ret (- c).
Proof.
  intros HS HK HT Hsig.
  exists (spec_call S0 K T r sigma), (spec_put S0 K T r sigma).
  rewrite (black_and_scholes_call (mkParams S0 K T r sigma "call")),
    (black_and_scholes_put (mkParams S0 K T r sigma "put")),
    (black_and_scholes_call (mkParams S0 K T r (- sigma) "call")),
    (black_and_scholes_put (mkParams S0 K T r (- sigma) "put"))
    by (simpl; auto).
  cbn [_S0 _K _T _r _sigma].
  split; [reflexivity |]. split; [reflexivity |].
  split; f_equal; unfold spec_call, spec_put, spec_d2;
    rewrite spec_d1_opp_sigma by lra;
    replace (- spec_d1 S0 K T r sigma - - sigma * sqrt T)
      with (- (spec_d1 S0 K T r sigma - sigma * sqrt T)) by ring;
    rewrite ?Ropp_involutive; ring.
Qed.

Lemma negative_volatility_mirrors_side_witness :
  exists c p : R,
    black_and_scholes (mkParams 100 100 1 (5 / 100) (2 / 10) "call") = Ret c /\
    black_and_scholes (mkParams 100 100 1 (5 / 100) (2 / 10) "put") = Ret p /\
    black_and_scholes (mkParams 100 100 1 (5 / 100) (- (2 / 10)) "call") = Ret (- p) /\
    black_and_scholes (mkParams 100 100 1 (5 / 100) (- (2 / 10)) "put") = Ret (- c).
Proof.
  apply (negative_volatility_mirrors_side 100 100 1 (5 / 100) (2 / 10)); lra.
Defined.

(** ** The implied-volatility objective *)

(** X14. When the market price is the price of the contract at a positive
    volatility sigma0, the objective minimised by [implied_volatility]
    vanishes at a positive volatility only if it is sigma0. *)
Theorem implied_volatility_objective_zero
  (S0 K T r : R) (side : string) (sigma0 sigma : R) (o : EuropeanOption) :
  0 < S0 -> 0 < K -> 0 < T ->
  0 < sigma0 -> 0 < sigma ->
  __init__ S0 K T r sigma0 side = Ret o ->
  objective (_price o) S0 K T r side sigma = Ret 0 <-> sigma = sigma0.
Proof.
  intros HS HK HT H0 Hsig Hinit. unfold __init__ in Hinit.
  destruct (black_and_scholes (mkParams S0 K T r sigma0 side)) as [p | e] eqn:Hbs;
    simpl in Hinit; [| discriminate].
  injection Hinit as <-. simpl.
  apply objective_zero_unique; try assumption.
  pose proof (black_and_scholes_Ret_type _ _ Hbs) as Hin.
  now apply str_in_call_put in Hin.
Qed.

Lemma implied_volatility_objective_zero_witness :
  objective (spec_call 100 100 1 (5 / 100) (2 / 10)) 100 100 1 (5 / 100) "call" (3 / 10)
    = Ret 0 <-> 3 / 10 = 2 / 10.
Proof.
  apply (implied_volatility_objective_zero 100 100 1 (5 / 100) "call" (2 / 10) (3 / 10)
           (mkOption (mkParams 100 100 1 (5 / 100) (2 / 10) "call")
              (spec_call 100 100 1 (5 / 100) (2 / 10))));
    try lra.
  unfold __init__. rewrite black_and_scholes_call; simpl; try lra; reflexivity.
Defined.
